(** * Binary Ninja API binding layer: reference counting, data buffers, streams

    A shallow embedding of the self-contained logic of [binaryninjaapi.h]
    and [databuffer.cpp]:

    - [RefCount]: [RefCountObject] and the intrusive smart pointer [Ref<T>];
    - [Buffer]: [DataBuffer], a value type over the core's [BNDataBuffer];
    - [Stream], [BinaryReader], [BinaryWriter]: the two cursors over a
      [BinaryView], of which the header has the declarations only.

    The definitions come first, one module per class; the properties follow,
    in the modules whose names end in [Theory]. *)

From Stdlib Require Import ZArith Lia.
From Stdlib.Strings Require Import Byte.
From stdpp Require Import base option list gmap fin_maps strings.

Local Open Scope Z_scope.

(** ** Machine integers

    [int] is 32 bits wide and two's complement; the atomic builtins used by
    [RefCountObject] wrap around on overflow. *)

Definition INT_MIN : Z := -2147483648.
Definition INT_MAX : Z := 2147483647.

Definition is_int (z : Z) : Prop := INT_MIN <= z <= INT_MAX.

Definition wrap_int (z : Z) : Z := (z + 2147483648) mod 4294967296 - 2147483648.

(** [__sync_fetch_and_add(&x, d)]: the value stored afterwards, and the value
    fetched (the one before the addition). *)
Definition sync_fetch_and_add (x d : Z) : Z * Z := (wrap_int (x + d), x).

(** [InterlockedIncrement] / [InterlockedDecrement] on a [LONG]: the value
    stored afterwards, which is also the value returned. *)
Definition InterlockedIncrement (x : Z) : Z * Z := (wrap_int (x + 1), wrap_int (x + 1)).
Definition InterlockedDecrement (x : Z) : Z * Z := (wrap_int (x - 1), wrap_int (x - 1)).

Module RefCount.

(** *** [class RefCountObject] *)

Record RefCountObject : Type := { m_refs : Z }.

(** [RefCountObject(): m_refs(0) {}] *)
Definition RefCountObject_new : RefCountObject := {| m_refs := 0 |}.

(** [void AddRef()] *)
Definition AddRef (this : RefCountObject) : RefCountObject :=
  {| m_refs := fst (sync_fetch_and_add (m_refs this) 1) |}.

(** [void Release()]: the object after the decrement, and whether
    [delete this] ran. *)
Definition Release (this : RefCountObject) : RefCountObject * bool :=
  let '(stored, fetched) := sync_fetch_and_add (m_refs this) (-1) in
  ({| m_refs := stored |}, fetched =? 1).

(** The [WIN32] branches of the same two methods. *)
Definition AddRef_WIN32 (this : RefCountObject) : RefCountObject :=
  {| m_refs := fst (InterlockedIncrement (m_refs this)) |}.

Definition Release_WIN32 (this : RefCountObject) : RefCountObject * bool :=
  let '(stored, returned) := InterlockedDecrement (m_refs this) in
  ({| m_refs := stored |}, returned =? 0).

(** *** The heap and the live [Ref<T>] handles

    Objects live at addresses; a [T*] is [NULL] or the address of an object.
    Every live [Ref<T>] has an identity (where the handle itself is stored)
    and its [m_obj] field.  The trace records every [AddRef] and [Release]
    call and every [delete this]. *)

Definition addr := positive.
Definition hid := nat.

Inductive ptr : Type := NULL | Ptr (a : addr).

Global Instance ptr_eq_dec : EqDecision ptr.
Proof. solve_decision. Defined.

Inductive event : Type :=
  | EvAddRef (a : addr)
  | EvRelease (a : addr)
  | EvDelete (a : addr).

Record state : Type := {
  heap : gmap addr RefCountObject;
  refs : gmap hid ptr;
  trace : list event
}.

Definition set_heap (f : gmap addr RefCountObject -> gmap addr RefCountObject)
    (s : state) : state :=
  {| heap := f (heap s); refs := refs s; trace := trace s |}.

Definition set_refs (f : gmap hid ptr -> gmap hid ptr) (s : state) : state :=
  {| heap := heap s; refs := f (refs s); trace := trace s |}.

Definition log (e : event) (s : state) : state :=
  {| heap := heap s; refs := refs s; trace := trace s ++ [e] |}.

Definition empty_state : state := {| heap := ∅; refs := ∅; trace := [] |}.

(** [new T]: a fresh object, with [m_refs = 0].  Fails on an address in use. *)
Definition new_object (a : addr) (s : state) : option state :=
  match heap s !! a with
  | Some _ => None
  | None => Some (set_heap (insert a RefCountObject_new) s)
  end.

(** [p->AddRef()]: undefined ([None]) through [NULL] or a deleted object. *)
Definition call_AddRef (p : ptr) (s : state) : option state :=
  match p with
  | NULL => None
  | Ptr a =>
      o ← heap s !! a;
      Some (log (EvAddRef a) (set_heap (insert a (AddRef o)) s))
  end.

(** [p->Release()].  [delete this] runs [virtual ~RefCountObject() {}], whose
    body is empty, and gives the storage back.  Where a derived class has
    [Ref<T>] members ([BinaryView::m_file]), their destructors run next; each
    is an [~Ref<T>()] step of its own here. *)
Definition call_Release (p : ptr) (s : state) : option state :=
  match p with
  | NULL => None
  | Ptr a =>
      o ← heap s !! a;
      let '(o', deleted) := Release o in
      let s' := log (EvRelease a) (set_heap (insert a o') s) in
      Some (if deleted then log (EvDelete a) (set_heap (delete a) s') else s')
  end.

(** [if (p) p->AddRef();] and [if (p) p->Release();] *)
Definition if_AddRef (p : ptr) (s : state) : option state :=
  match p with NULL => Some s | Ptr _ => call_AddRef p s end.

Definition if_Release (p : ptr) (s : state) : option state :=
  match p with NULL => Some s | Ptr _ => call_Release p s end.

(** *** [template <class T> class Ref] *)

(** [Ref<T>(): m_obj(NULL)] *)
Definition Ref_default (this : hid) (s : state) : option state :=
  Some (set_refs (insert this NULL) s).

(** [Ref<T>(T* obj): m_obj(obj)] *)
Definition Ref_from_ptr (this : hid) (obj : ptr) (s : state) : option state :=
  if_AddRef obj (set_refs (insert this obj) s).

(** [Ref<T>(const Ref<T>& obj): m_obj(obj.m_obj)] *)
Definition Ref_copy (this obj : hid) (s : state) : option state :=
  obj_m_obj ← refs s !! obj;
  if_AddRef obj_m_obj (set_refs (insert this obj_m_obj) s).

(** [~Ref<T>()]; the handle is gone afterwards. *)
Definition Ref_destroy (this : hid) (s : state) : option state :=
  m_obj ← refs s !! this;
  s' ← if_Release m_obj s;
  Some (set_refs (delete this) s').

(** [Ref<T>& operator=(T* obj)] *)
Definition Ref_assign_ptr (this : hid) (obj : ptr) (s : state) : option state :=
  oldObj ← refs s !! this;
  let s1 := set_refs (insert this obj) s in
  s2 ← if_AddRef obj s1;
  if_Release oldObj s2.

(** [Ref<T>& operator=(const Ref<T>& obj)] *)
Definition Ref_assign (this obj : hid) (s : state) : option state :=
  oldObj ← refs s !! this;
  obj_m_obj ← refs s !! obj;
  let s1 := set_refs (insert this obj_m_obj) s in
  s2 ← if_AddRef obj_m_obj s1;
  if_Release oldObj s2.

(** [operator T*() const], [T* operator->() const] and [T* GetPtr() const] *)
Definition Ref_to_ptr (this : hid) (s : state) : option ptr := refs s !! this.
Definition Ref_arrow (this : hid) (s : state) : option ptr := refs s !! this.
Definition GetPtr (this : hid) (s : state) : option ptr := refs s !! this.

(** [T& operator*() const]: [return *m_obj;], with no test of [m_obj]; the
    object referred to.  Undefined ([None]) through [NULL] or a deleted
    object. *)
Definition Ref_deref (this : hid) (s : state) : option addr :=
  m_obj ← refs s !! this;
  match m_obj with
  | NULL => None
  | Ptr a => _ ← heap s !! a; Some a
  end.

(** [bool operator!() const] *)
Definition Ref_not (this : hid) (s : state) : option bool :=
  m_obj ← refs s !! this;
  Some (bool_decide (m_obj = NULL)).

(** *** Programs over handles

    One step is one [Ref<T>] operation (or the allocation of an object). *)

Inductive op : Type :=
  | OpNew (a : addr)
  | OpRefDefault (h : hid)
  | OpRefFromPtr (h : hid) (p : ptr)
  | OpRefCopy (h src : hid)
  | OpRefAssign (h src : hid)
  | OpRefAssignPtr (h : hid) (p : ptr)
  | OpRefDestroy (h : hid).

Definition step (o : op) (s : state) : option state :=
  match o with
  | OpNew a => new_object a s
  | OpRefDefault h => Ref_default h s
  | OpRefFromPtr h p => Ref_from_ptr h p s
  | OpRefCopy h src => Ref_copy h src s
  | OpRefAssign h src => Ref_assign h src s
  | OpRefAssignPtr h p => Ref_assign_ptr h p s
  | OpRefDestroy h => Ref_destroy h s
  end.

Fixpoint run (os : list op) (s : state) : option state :=
  match os with
  | [] => Some s
  | o :: os' => s' ← step o s; run os' s'
  end.

(** A raw pointer handed to a handle is [NULL] or points to an object that
    has not been deleted. *)
Definition live_ptr (s : state) (p : ptr) : Prop :=
  match p with NULL => True | Ptr a => is_Some (heap s !! a) end.

(** Well-formed use: constructors run on storage that holds no handle yet,
    the other members on a live handle; allocation returns an unused
    address. *)
Definition valid_op (s : state) (o : op) : Prop :=
  match o with
  | OpNew a => heap s !! a = None
  | OpRefDefault h => refs s !! h = None
  | OpRefFromPtr h p => refs s !! h = None ∧ live_ptr s p
  | OpRefCopy h src => refs s !! h = None ∧ is_Some (refs s !! src)
  | OpRefAssign h src => is_Some (refs s !! h) ∧ is_Some (refs s !! src)
  | OpRefAssignPtr h p => is_Some (refs s !! h) ∧ live_ptr s p
  | OpRefDestroy h => is_Some (refs s !! h)
  end.

(** The number of live handles whose wrapped pointer is [a]. *)
Definition points_to (a : addr) (hp : hid * ptr) : Prop := hp.2 = Ptr a.

Global Instance points_to_dec a hp : Decision (points_to a hp).
Proof. unfold points_to. apply _. Defined.

Definition ref_count (a : addr) (R : gmap hid ptr) : nat :=
  size (filter (points_to a) R).

(** The reference-counting invariant: the count of every object that has
    not been deleted is the number of live handles wrapping it, and no live
    handle wraps a deleted object.  [m_refs] is an [int]. *)
Record Inv (s : state) : Prop := {
  inv_count : ∀ a o, heap s !! a = Some o → m_refs o = Z.of_nat (ref_count a (refs s));
  inv_live : ∀ h a, refs s !! h = Some (Ptr a) → is_Some (heap s !! a);
  inv_int : ∀ a o, heap s !! a = Some o → is_int (m_refs o)
}.

(** A step that made no [AddRef] or [Release] call and deleted nothing. *)
Definition no_calls (s s' : state) : Prop :=
  heap s' = heap s ∧ trace s' = trace s.

(** [1] when [P] holds, [0] otherwise. *)
Definition ind (P : Prop) `{!Decision P} : nat := if decide P then 1%nat else 0%nat.

(** The invariant modulo 2^32.  Between the [AddRef] and the [Release] of
    an assignment the count may pass [INT_MAX]; what holds at every point is
    the equation modulo 2^32, for a count [c] that follows the calls. *)
Definition InvM (H : gmap addr RefCountObject) (c : addr → Z) : Prop :=
  (∀ a o, H !! a = Some o → m_refs o = wrap_int (c a)) ∧
  (∀ a, 0 < c a → is_Some (H !! a)).

Definition bump (p : ptr) (d : Z) (c : addr → Z) : addr → Z :=
  λ x, if decide (p = Ptr x) then c x + d else c x.

(** No object has more live handles than an [int] can count. *)
Definition handles_bounded (s : state) : Prop :=
  ∀ a, Z.of_nat (ref_count a (refs s)) <= INT_MAX.

(** [n] handles, numbered [0 .. n-1], all wrapping [a]. *)
Fixpoint handles_upto (a : addr) (n : nat) : gmap hid ptr :=
  match n with
  | O => ∅
  | S k => <[k := Ptr a]> (handles_upto a k)
  end.

(** One object wrapped by one handle. *)
Definition one_state : state :=
  {| heap := {[ 1%positive := {| m_refs := 1 |} ]};
     refs := {[ 0%nat := Ptr 1%positive ]};
     trace := [EvAddRef 1%positive] |}.

(** One object wrapped by one handle, beside a handle that holds [NULL]. *)
Definition null_state : state :=
  {| heap := {[ 1%positive := {| m_refs := 1 |} ]};
     refs := {[ 0%nat := NULL; 1%nat := Ptr 1%positive ]};
     trace := [] |}.

(** One object whose count has reached [INT_MAX], with as many handles. *)
Definition many : nat := Z.to_nat INT_MAX.

Definition full_state : state :=
  {| heap := {[ 1%positive := {| m_refs := INT_MAX |} ]};
     refs := handles_upto 1%positive many;
     trace := [] |}.

End RefCount.

Module Buffer.

(** *** The core's data buffers *)

(** A [BNDataBuffer*] names a buffer owned by the core; the core's store
    holds the contents of the buffers that have not been freed. *)
Definition BNDataBuffer := positive.

Abbreviation core := (gmap BNDataBuffer (list byte)).

(** Modelled from the spec: the [BN*DataBuffer*] functions of the core
    ([binaryninjacore.h] and the core library are not among the sources).
    The spec calls them the core's allocation functions behind a byte-buffer
    value type: a buffer is a sequence of bytes, created and duplicated into
    storage of its own, freed once, and any use of a buffer that is not live
    is undefined ([None]). *)
Definition alloc (contents : list byte) (c : core) : BNDataBuffer * core :=
  let b := fresh (dom c) in (b, <[b := contents]> c).

(** Modelled from the spec: [BNCreateDataBuffer(data, len)] of the core, a new
    buffer holding the [len] bytes at [data]. *)
Definition BNCreateDataBuffer (data : list byte) (c : core) : option (BNDataBuffer * core) :=
  Some (alloc data c).

(** Modelled from the spec: [BNDuplicateDataBuffer(buf)] of the core, a new
    buffer with the contents of [buf]. *)
Definition BNDuplicateDataBuffer (buf : BNDataBuffer) (c : core)
    : option (BNDataBuffer * core) :=
  contents ← c !! buf; Some (alloc contents c).

(** Modelled from the spec: [BNFreeDataBuffer(buf)] of the core; [buf] is not live
    afterwards. *)
Definition BNFreeDataBuffer (buf : BNDataBuffer) (c : core) : option core :=
  _ ← c !! buf; Some (delete buf c).

(** Modelled from the spec: [BNGetDataBufferContents(buf)] of the core, the
    bytes of [buf]. *)
Definition BNGetDataBufferContents (buf : BNDataBuffer) (c : core) : option (list byte) :=
  c !! buf.

(** Modelled from the spec: [BNGetDataBufferLength(buf)] of the core. *)
Definition BNGetDataBufferLength (buf : BNDataBuffer) (c : core) : option nat :=
  length <$> c !! buf.

(** Modelled from the spec: [BNSetDataBufferLength(buf, len)] of the core: the
    first [len] bytes are kept, new bytes are zero. *)
Definition BNSetDataBufferLength (buf : BNDataBuffer) (len : nat) (c : core) : option core :=
  contents ← c !! buf;
  Some (<[buf := take len contents ++ replicate (len - length contents) Byte.x00]> c).

(** Modelled from the spec: [BNClearDataBuffer(buf)] of the core. *)
Definition BNClearDataBuffer (buf : BNDataBuffer) (c : core) : option core :=
  _ ← c !! buf; Some (<[buf := []]> c).

(** Modelled from the spec: [BNAppendDataBufferContents(buf, data, len)] of
    the core. *)
Definition BNAppendDataBufferContents (buf : BNDataBuffer) (data : list byte) (c : core)
    : option core :=
  contents ← c !! buf; Some (<[buf := contents ++ data]> c).

(** Modelled from the spec: [BNAppendDataBuffer(dest, src)] of the core. *)
Definition BNAppendDataBuffer (dest src : BNDataBuffer) (c : core) : option core :=
  contents ← c !! dest; more ← c !! src; Some (<[dest := contents ++ more]> c).

(** *** [class DataBuffer] ([databuffer.cpp]) *)

Record DataBuffer : Type := { m_buffer : BNDataBuffer }.

(** [DataBuffer::DataBuffer()] *)
Definition DataBuffer_new (c : core) : option (DataBuffer * core) :=
  '(b, c') ← BNCreateDataBuffer [] c; Some ({| m_buffer := b |}, c').

(** [DataBuffer::DataBuffer(size_t len)] *)
Definition DataBuffer_of_len (len : nat) (c : core) : option (DataBuffer * core) :=
  '(b, c') ← BNCreateDataBuffer (replicate len Byte.x00) c; Some ({| m_buffer := b |}, c').

(** [DataBuffer::DataBuffer(const void* data, size_t len)], [data] being the
    [len] bytes at the pointer. *)
Definition DataBuffer_of_data (data : list byte) (c : core) : option (DataBuffer * core) :=
  '(b, c') ← BNCreateDataBuffer data c; Some ({| m_buffer := b |}, c').

(** [DataBuffer::DataBuffer(const DataBuffer& buf)] *)
Definition DataBuffer_copy (buf : DataBuffer) (c : core) : option (DataBuffer * core) :=
  '(b, c') ← BNDuplicateDataBuffer (m_buffer buf) c; Some ({| m_buffer := b |}, c').

(** [DataBuffer::DataBuffer(BNDataBuffer* buf)] *)
Definition DataBuffer_of_handle (buf : BNDataBuffer) : DataBuffer := {| m_buffer := buf |}.

(** [DataBuffer::~DataBuffer()] *)
Definition DataBuffer_destroy (this : DataBuffer) (c : core) : option core :=
  BNFreeDataBuffer (m_buffer this) c.

(** [DataBuffer& DataBuffer::operator=(const DataBuffer& buf)]: the buffer of
    [this] is freed first, then [buf.m_buffer] is duplicated. *)
Definition DataBuffer_assign (this buf : DataBuffer) (c : core) : option (DataBuffer * core) :=
  c1 ← BNFreeDataBuffer (m_buffer this) c;
  '(b, c2) ← BNDuplicateDataBuffer (m_buffer buf) c1;
  Some ({| m_buffer := b |}, c2).

(** [GetData] and [GetLength] *)
Definition GetData (this : DataBuffer) (c : core) : option (list byte) :=
  BNGetDataBufferContents (m_buffer this) c.

Definition GetLength (this : DataBuffer) (c : core) : option nat :=
  BNGetDataBufferLength (m_buffer this) c.

(** [SetSize], [Clear], the two [Append]s and [AppendByte] *)
Definition SetSize (this : DataBuffer) (len : nat) (c : core) : option core :=
  BNSetDataBufferLength (m_buffer this) len c.

Definition Clear (this : DataBuffer) (c : core) : option core :=
  BNClearDataBuffer (m_buffer this) c.

Definition Append (this : DataBuffer) (data : list byte) (c : core) : option core :=
  BNAppendDataBufferContents (m_buffer this) data c.

Definition Append_buffer (this buf : DataBuffer) (c : core) : option core :=
  BNAppendDataBuffer (m_buffer this) (m_buffer buf) c.

Definition AppendByte (this : DataBuffer) (val : byte) (c : core) : option core :=
  Append this [val] c.

(** [uint8_t& operator[](size_t offset)], read and written: the byte at
    [offset] from [GetData()].  Outside the buffer it is undefined. *)
Definition index_get (this : DataBuffer) (offset : nat) (c : core) : option byte :=
  data ← GetData this c; data !! offset.

Definition index_set (this : DataBuffer) (offset : nat) (val : byte) (c : core) : option core :=
  data ← GetData this c;
  if decide (offset < length data)%nat
  then Some (<[m_buffer this := <[offset := val]> data]> c)
  else None.

(** The mutators named by the value-semantics property. *)
Inductive mutation : Type :=
  | MSetSize (len : nat)
  | MClear
  | MAppend (data : list byte)
  | MAppendBuffer (buf : DataBuffer)
  | MAppendByte (val : byte)
  | MIndexSet (offset : nat) (val : byte).

Definition mutate (m : mutation) (this : DataBuffer) (c : core) : option core :=
  match m with
  | MSetSize len => SetSize this len c
  | MClear => Clear this c
  | MAppend data => Append this data c
  | MAppendBuffer buf => Append_buffer this buf c
  | MAppendByte val => AppendByte this val c
  | MIndexSet offset val => index_set this offset val c
  end.

End Buffer.

Module Stream.

(** *** What the header declares *)

(** [BNEndianness], the enumeration of the core header; [LittleEndian] is
    the default argument of both constructors. *)
Inductive BNEndianness : Type := LittleEndian | BigEndian.

Global Instance BNEndianness_eq_dec : EqDecision BNEndianness.
Proof. solve_decision. Defined.

(** [class ReadException] and [class WriteException], with their [what()]. *)
Inductive exception : Type := ReadException | WriteException.

Definition what (e : exception) : string :=
  match e with
  | ReadException => "read out of bounds"
  | WriteException => "write out of bounds"
  end.

(** A call returns or throws. *)
Inductive outcome (A : Type) : Type :=
  | Returned (a : A)
  | Thrown (e : exception).

Arguments Returned {A} a.
Arguments Thrown {A} e.

Definition returned {A} (o : outcome A) : bool :=
  match o with Returned _ => true | Thrown _ => false end.

(** [uint64_t] *)
Definition wrap_uint64 (z : Z) : Z := z mod 18446744073709551616.


(** *** The view under a cursor *)

(** Modelled from the spec: the data of a [BinaryView] (its methods are
    declared in the header, their bodies and the core behind them are not
    among the sources): the bytes of the view, from [GetStart()] to
    [GetEnd()]. *)
Record BinaryView : Type := { start : Z; contents : list byte }.

Definition GetStart (v : BinaryView) : Z := start v.
Definition GetLength (v : BinaryView) : Z := Z.of_nat (length (contents v)).
Definition GetEnd (v : BinaryView) : Z := GetStart v + GetLength v.

(** The range of [len] bytes at [offset] lies within the view. *)
Definition in_bounds (v : BinaryView) (offset : Z) (len : nat) : Prop :=
  GetStart v <= offset ∧ offset + Z.of_nat len <= GetEnd v.

Global Instance in_bounds_dec v offset len : Decision (in_bounds v offset len).
Proof. unfold in_bounds. apply _. Defined.


(** Modelled from the spec: the bounds-checked read that the core does for a
    cursor (not among the sources): all [len] bytes, or nothing. *)
Definition view_read (v : BinaryView) (offset : Z) (len : nat) : option (list byte) :=
  if decide (in_bounds v offset len)
  then Some (take len (drop (Z.to_nat (offset - start v)) (contents v)))
  else None.

(** Modelled from the spec: the bounds-checked write that the core does for
    a cursor (not among the sources): all the bytes, or nothing. *)
Definition view_write (v : BinaryView) (offset : Z) (data : list byte) : option BinaryView :=
  if decide (in_bounds v offset (length data))
  then let k := Z.to_nat (offset - start v) in
       Some {| start := start v;
               contents := take k (contents v) ++ data ++ drop (k + length data) (contents v) |}
  else None.

(** *** Integers as bytes *)

Definition byte_val (b : byte) : Z := Z.of_N (Byte.to_N b).

Definition byte_of (z : Z) : byte := default Byte.x00 (Byte.of_N (Z.to_N (z mod 256))).

Fixpoint decode_le (bs : list byte) : Z :=
  match bs with
  | [] => 0
  | b :: bs' => byte_val b + 256 * decode_le bs'
  end.

Fixpoint encode_le (width : nat) (val : Z) : list byte :=
  match width with
  | O => []
  | S w => byte_of val :: encode_le w (val / 256)
  end.

Definition decode (e : BNEndianness) (bs : list byte) : Z :=
  match e with LittleEndian => decode_le bs | BigEndian => decode_le (rev bs) end.

Definition encode (e : BNEndianness) (width : nat) (val : Z) : list byte :=
  match e with LittleEndian => encode_le width val | BigEndian => rev (encode_le width val) end.

(** Modelled from the spec: the state of a core stream ([BNBinaryReader],
    [BNBinaryWriter]; not among the sources): a sequential cursor, that is a
    position, and the byte order in use. *)
Record BNStream : Type := { position : Z; endianness : BNEndianness }.

End Stream.

Module BinaryReader.
Import Stream.

(** [class BinaryReader]: [Ref<BinaryView> m_view; BNBinaryReader* m_stream;] *)
Record BinaryReader : Type := { m_view : BinaryView; m_stream : BNStream }.

(** The bodies of the members of [BinaryReader] ([binaryreader.cpp]) are not
    among the sources.  The spec calls the class a sequential cursor wrapper
    over a [BinaryView] that delegates bounds-checked reads to the core; the
    header gives the signatures, the default byte order and the exception.
    A member that returns a value throws [ReadException] when the core
    refuses the read, its [Try] twin returns [false]. *)

(** Modelled from the spec: [BinaryReader(BinaryView* data, BNEndianness
    endian = LittleEndian)], [None] being the call without the second
    argument; the cursor of a new stream is at offset 0. *)
Definition new (data : BinaryView) (endian : option BNEndianness) : BinaryReader :=
  {| m_view := data;
     m_stream := {| position := 0; endianness := default LittleEndian endian |} |}.

(** Modelled from the spec: [BNEndianness GetEndianness() const]. *)
Definition GetEndianness (this : BinaryReader) : BNEndianness := endianness (m_stream this).

(** Modelled from the spec: [void SetEndianness(BNEndianness endian)]. *)
Definition SetEndianness (this : BinaryReader) (endian : BNEndianness) : BinaryReader :=
  {| m_view := m_view this;
     m_stream := {| position := position (m_stream this); endianness := endian |} |}.

(** Modelled from the spec: [uint64_t GetOffset() const]. *)
Definition GetOffset (this : BinaryReader) : Z := position (m_stream this).

(** Modelled from the spec: the core moving the cursor, a [uint64_t]. *)
Definition set_position (this : BinaryReader) (pos : Z) : BinaryReader :=
  {| m_view := m_view this;
     m_stream := {| position := wrap_uint64 pos; endianness := endianness (m_stream this) |} |}.

(** Modelled from the spec: [void Seek(uint64_t offset)]. *)
Definition Seek (this : BinaryReader) (offset : Z) : BinaryReader := set_position this offset.

(** Modelled from the spec: [void SeekRelative(int64_t offset)]. *)
Definition SeekRelative (this : BinaryReader) (offset : Z) : BinaryReader :=
  set_position this (GetOffset this + offset).

(** Modelled from the spec: [bool IsEndOfFile() const]. *)
Definition IsEndOfFile (this : BinaryReader) : bool :=
  bool_decide (GetEnd (m_view this) <= GetOffset this).

(** Modelled from the spec: [BNReadData], the core call behind every read:
    [len] bytes at the cursor, which then moves past them. *)
Definition BNReadData (this : BinaryReader) (len : nat) : option (list byte * BinaryReader) :=
  data ← view_read (m_view this) (GetOffset this) len;
  Some (data, set_position this (GetOffset this + Z.of_nat len)).

(** Modelled from the spec: the core reading an integer of [width] bytes in
    byte order [e]. *)
Definition read_int (width : nat) (e : BNEndianness) (this : BinaryReader)
    : option (Z * BinaryReader) :=
  '(data, this') ← BNReadData this width; Some (decode e data, this').

(** Modelled from the spec: the core reading [len] characters. *)
Definition read_string (len : nat) (this : BinaryReader) : option (string * BinaryReader) :=
  '(data, this') ← BNReadData this len; Some (String.string_of_list_byte data, this').

(** Modelled from the spec: a throwing member and its [Try] twin share the
    core call; the first throws [ReadException] where the second returns
    [false]. *)
Definition throwing {A} (call : BinaryReader → option (A * BinaryReader))
    (this : BinaryReader) : outcome A * BinaryReader :=
  match call this with
  | Some (a, this') => (Returned a, this')
  | None => (Thrown ReadException, this)
  end.

(** Modelled from the spec: the result of a [Try] member, the [bool] it
    returns and what it stores through its result parameter. *)
Definition trying {A} (call : BinaryReader → option (A * BinaryReader))
    (this : BinaryReader) : bool * option A * BinaryReader :=
  match call this with
  | Some (a, this') => (true, Some a, this')
  | None => (false, None, this)
  end.

(** Modelled from the spec: [void Read(void* dest, size_t len)] and [DataBuffer Read(size_t len)]. *)
Definition Read (this : BinaryReader) (len : nat) := throwing (λ r, BNReadData r len) this.
(** Modelled from the spec: [std::string ReadString(size_t len)]. *)
Definition ReadString (this : BinaryReader) (len : nat) := throwing (read_string len) this.
(** Modelled from the spec: [uint8_t Read8()]. *)
Definition Read8 (this : BinaryReader) := throwing (read_int 1 LittleEndian) this.
(** Modelled from the spec: [uint16_t Read16()]. *)
Definition Read16 (this : BinaryReader) := throwing (read_int 2 (GetEndianness this)) this.
(** Modelled from the spec: [uint32_t Read32()]. *)
Definition Read32 (this : BinaryReader) := throwing (read_int 4 (GetEndianness this)) this.
(** Modelled from the spec: [uint64_t Read64()]. *)
Definition Read64 (this : BinaryReader) := throwing (read_int 8 (GetEndianness this)) this.
(** Modelled from the spec: [uint16_t ReadLE16()]. *)
Definition ReadLE16 (this : BinaryReader) := throwing (read_int 2 LittleEndian) this.
(** Modelled from the spec: [uint32_t ReadLE32()]. *)
Definition ReadLE32 (this : BinaryReader) := throwing (read_int 4 LittleEndian) this.
(** Modelled from the spec: [uint64_t ReadLE64()]. *)
Definition ReadLE64 (this : BinaryReader) := throwing (read_int 8 LittleEndian) this.
(** Modelled from the spec: [uint16_t ReadBE16()]. *)
Definition ReadBE16 (this : BinaryReader) := throwing (read_int 2 BigEndian) this.
(** Modelled from the spec: [uint32_t ReadBE32()]. *)
Definition ReadBE32 (this : BinaryReader) := throwing (read_int 4 BigEndian) this.
(** Modelled from the spec: [uint64_t ReadBE64()]. *)
Definition ReadBE64 (this : BinaryReader) := throwing (read_int 8 BigEndian) this.

(** Modelled from the spec: [bool TryRead(void* dest, size_t len)] and [bool TryRead(DataBuffer& dest, size_t len)]. *)
Definition TryRead (this : BinaryReader) (len : nat) := trying (λ r, BNReadData r len) this.
(** Modelled from the spec: [bool TryReadString(std::string& dest, size_t len)]. *)
Definition TryReadString (this : BinaryReader) (len : nat) := trying (read_string len) this.
(** Modelled from the spec: [bool TryRead8(uint8_t& result)]. *)
Definition TryRead8 (this : BinaryReader) := trying (read_int 1 LittleEndian) this.
(** Modelled from the spec: [bool TryRead16(uint16_t& result)]. *)
Definition TryRead16 (this : BinaryReader) := trying (read_int 2 (GetEndianness this)) this.
(** Modelled from the spec: [bool TryRead32(uint32_t& result)]. *)
Definition TryRead32 (this : BinaryReader) := trying (read_int 4 (GetEndianness this)) this.
(** Modelled from the spec: [bool TryRead64(uint64_t& result)]. *)
Definition TryRead64 (this : BinaryReader) := trying (read_int 8 (GetEndianness this)) this.
(** Modelled from the spec: [bool TryReadLE16(uint16_t& result)]. *)
Definition TryReadLE16 (this : BinaryReader) := trying (read_int 2 LittleEndian) this.
(** Modelled from the spec: [bool TryReadLE32(uint32_t& result)]. *)
Definition TryReadLE32 (this : BinaryReader) := trying (read_int 4 LittleEndian) this.
(** Modelled from the spec: [bool TryReadLE64(uint64_t& result)]. *)
Definition TryReadLE64 (this : BinaryReader) := trying (read_int 8 LittleEndian) this.
(** Modelled from the spec: [bool TryReadBE16(uint16_t& result)]. *)
Definition TryReadBE16 (this : BinaryReader) := trying (read_int 2 BigEndian) this.
(** Modelled from the spec: [bool TryReadBE32(uint32_t& result)]. *)
Definition TryReadBE32 (this : BinaryReader) := trying (read_int 4 BigEndian) this.
(** Modelled from the spec: [bool TryReadBE64(uint64_t& result)]. *)
Definition TryReadBE64 (this : BinaryReader) := trying (read_int 8 BigEndian) this.

(** Every read operation, by name. *)
Inductive read_op : Type :=
  | OpRead (len : nat) | OpReadString (len : nat)
  | OpRead8 | OpRead16 | OpRead32 | OpRead64
  | OpReadLE16 | OpReadLE32 | OpReadLE64
  | OpReadBE16 | OpReadBE32 | OpReadBE64.

Inductive read_value : Type :=
  | VData (data : list byte)
  | VString (str : string)
  | VInt (val : Z).

(** The number of bytes an operation asks for. *)
Definition requested (o : read_op) : nat :=
  match o with
  | OpRead len | OpReadString len => len
  | OpRead8 => 1
  | OpRead16 | OpReadLE16 | OpReadBE16 => 2
  | OpRead32 | OpReadLE32 | OpReadBE32 => 4
  | OpRead64 | OpReadLE64 | OpReadBE64 => 8
  end.

Definition tag {A B R} (f : A → B) (x : outcome A * R) : outcome B * R :=
  match x with
  | (Returned a, r) => (Returned (f a), r)
  | (Thrown e, r) => (Thrown e, r)
  end.

Definition try_tag {A B R} (f : A → B) (x : bool * option A * R) : bool * option B * R :=
  match x with (b, a, r) => (b, f <$> a, r) end.

Definition perform (o : read_op) (this : BinaryReader) : outcome read_value * BinaryReader :=
  match o with
  | OpRead len => tag VData (Read this len)
  | OpReadString len => tag VString (ReadString this len)
  | OpRead8 => tag VInt (Read8 this)
  | OpRead16 => tag VInt (Read16 this)
  | OpRead32 => tag VInt (Read32 this)
  | OpRead64 => tag VInt (Read64 this)
  | OpReadLE16 => tag VInt (ReadLE16 this)
  | OpReadLE32 => tag VInt (ReadLE32 this)
  | OpReadLE64 => tag VInt (ReadLE64 this)
  | OpReadBE16 => tag VInt (ReadBE16 this)
  | OpReadBE32 => tag VInt (ReadBE32 this)
  | OpReadBE64 => tag VInt (ReadBE64 this)
  end.

Definition try_perform (o : read_op) (this : BinaryReader)
    : bool * option read_value * BinaryReader :=
  match o with
  | OpRead len => try_tag VData (TryRead this len)
  | OpReadString len => try_tag VString (TryReadString this len)
  | OpRead8 => try_tag VInt (TryRead8 this)
  | OpRead16 => try_tag VInt (TryRead16 this)
  | OpRead32 => try_tag VInt (TryRead32 this)
  | OpRead64 => try_tag VInt (TryRead64 this)
  | OpReadLE16 => try_tag VInt (TryReadLE16 this)
  | OpReadLE32 => try_tag VInt (TryReadLE32 this)
  | OpReadLE64 => try_tag VInt (TryReadLE64 this)
  | OpReadBE16 => try_tag VInt (TryReadBE16 this)
  | OpReadBE32 => try_tag VInt (TryReadBE32 this)
  | OpReadBE64 => try_tag VInt (TryReadBE64 this)
  end.

(** What a program does with a reader, [SetEndianness] apart. *)
Inductive command : Type :=
  | CSeek (offset : Z)
  | CSeekRelative (offset : Z)
  | CPerform (o : read_op)
  | CTry (o : read_op).

Definition exec (c : command) (this : BinaryReader) : BinaryReader :=
  match c with
  | CSeek offset => Seek this offset
  | CSeekRelative offset => SeekRelative this offset
  | CPerform o => (perform o this).2
  | CTry o => (try_perform o this).2
  end.

(** A view of three bytes at address 16, and a reader on it. *)
Definition sample_view : BinaryView :=
  {| start := 16; contents := [Byte.x01; Byte.x02; Byte.x03] |}.

Definition sample_reader : BinaryReader := Seek (new sample_view None) 16.

End BinaryReader.

Module BinaryWriter.
Import Stream.

(** [class BinaryWriter]: [Ref<BinaryView> m_view; BNBinaryWriter* m_stream;] *)
Record BinaryWriter : Type := { m_view : BinaryView; m_stream : BNStream }.

(** The bodies of the members of [BinaryWriter] ([binarywriter.cpp]) are not
    among the sources.  The spec calls the class a sequential cursor wrapper
    over a [BinaryView] that delegates bounds-checked writes to the core; the
    header gives the signatures, the default byte order and the exception.
    A [void] member throws [WriteException] when the core refuses the write,
    its [Try] twin returns [false]. *)

(** Modelled from the spec: [BinaryWriter(BinaryView* data, BNEndianness
    endian = LittleEndian)], [None] being the call without the second
    argument; the cursor of a new stream is at offset 0. *)
Definition new (data : BinaryView) (endian : option BNEndianness) : BinaryWriter :=
  {| m_view := data;
     m_stream := {| position := 0; endianness := default LittleEndian endian |} |}.

(** Modelled from the spec: [BNEndianness GetEndianness() const]. *)
Definition GetEndianness (this : BinaryWriter) : BNEndianness := endianness (m_stream this).

(** Modelled from the spec: [void SetEndianness(BNEndianness endian)]. *)
Definition SetEndianness (this : BinaryWriter) (endian : BNEndianness) : BinaryWriter :=
  {| m_view := m_view this;
     m_stream := {| position := position (m_stream this); endianness := endian |} |}.

(** Modelled from the spec: [uint64_t GetOffset() const]. *)
Definition GetOffset (this : BinaryWriter) : Z := position (m_stream this).

(** Modelled from the spec: the core moving the cursor, a [uint64_t]. *)
Definition set_position (this : BinaryWriter) (pos : Z) : BinaryWriter :=
  {| m_view := m_view this;
     m_stream := {| position := wrap_uint64 pos; endianness := endianness (m_stream this) |} |}.

(** Modelled from the spec: [void Seek(uint64_t offset)]. *)
Definition Seek (this : BinaryWriter) (offset : Z) : BinaryWriter := set_position this offset.

(** Modelled from the spec: [void SeekRelative(int64_t offset)]. *)
Definition SeekRelative (this : BinaryWriter) (offset : Z) : BinaryWriter :=
  set_position this (GetOffset this + offset).

(** Modelled from the spec: [BNWriteData], the core call behind every write:
    the bytes go to the cursor, which then moves past them. *)
Definition BNWriteData (data : list byte) (this : BinaryWriter) : option BinaryWriter :=
  view ← view_write (m_view this) (GetOffset this) data;
  Some (set_position {| m_view := view; m_stream := m_stream this |}
          (GetOffset this + Z.of_nat (length data))).

(** Modelled from the spec: the core writing an integer of [width] bytes in
    byte order [e]. *)
Definition write_int (width : nat) (e : BNEndianness) (val : Z) (this : BinaryWriter)
    : option BinaryWriter :=
  BNWriteData (encode e width val) this.

(** Modelled from the spec: a throwing member and its [Try] twin share the
    core call; the first throws [WriteException] where the second returns
    [false]. *)
Definition throwing (call : BinaryWriter → option BinaryWriter) (this : BinaryWriter)
    : outcome unit * BinaryWriter :=
  match call this with
  | Some this' => (Returned tt, this')
  | None => (Thrown WriteException, this)
  end.

(** Modelled from the spec: the [bool] a [Try] member returns. *)
Definition trying (call : BinaryWriter → option BinaryWriter) (this : BinaryWriter)
    : bool * BinaryWriter :=
  match call this with
  | Some this' => (true, this')
  | None => (false, this)
  end.

(** Modelled from the spec: [void Write(const void* src, size_t len)] and [void Write(const DataBuffer& buf)]. *)
Definition Write (this : BinaryWriter) (src : list byte) := throwing (BNWriteData src) this.
(** Modelled from the spec: [void Write(const std::string& str)]. *)
Definition Write_string (this : BinaryWriter) (str : string) :=
  throwing (BNWriteData (String.list_byte_of_string str)) this.
(** Modelled from the spec: [void Write8(uint8_t val)]. *)
Definition Write8 (this : BinaryWriter) (val : Z) := throwing (write_int 1 LittleEndian val) this.
(** Modelled from the spec: [void Write16(uint16_t val)]. *)
Definition Write16 (this : BinaryWriter) (val : Z) :=
  throwing (write_int 2 (GetEndianness this) val) this.
(** Modelled from the spec: [void Write32(uint32_t val)]. *)
Definition Write32 (this : BinaryWriter) (val : Z) :=
  throwing (write_int 4 (GetEndianness this) val) this.
(** Modelled from the spec: [void Write64(uint64_t val)]. *)
Definition Write64 (this : BinaryWriter) (val : Z) :=
  throwing (write_int 8 (GetEndianness this) val) this.
(** Modelled from the spec: [void WriteLE16(uint16_t val)]. *)
Definition WriteLE16 (this : BinaryWriter) (val : Z) := throwing (write_int 2 LittleEndian val) this.
(** Modelled from the spec: [void WriteLE32(uint32_t val)]. *)
Definition WriteLE32 (this : BinaryWriter) (val : Z) := throwing (write_int 4 LittleEndian val) this.
(** Modelled from the spec: [void WriteLE64(uint64_t val)]. *)
Definition WriteLE64 (this : BinaryWriter) (val : Z) := throwing (write_int 8 LittleEndian val) this.
(** Modelled from the spec: [void WriteBE16(uint16_t val)]. *)
Definition WriteBE16 (this : BinaryWriter) (val : Z) := throwing (write_int 2 BigEndian val) this.
(** Modelled from the spec: [void WriteBE32(uint32_t val)]. *)
Definition WriteBE32 (this : BinaryWriter) (val : Z) := throwing (write_int 4 BigEndian val) this.
(** Modelled from the spec: [void WriteBE64(uint64_t val)]. *)
Definition WriteBE64 (this : BinaryWriter) (val : Z) := throwing (write_int 8 BigEndian val) this.

(** Modelled from the spec: [bool TryWrite(const void* src, size_t len)] and [bool TryWrite(const DataBuffer& buf)]. *)
Definition TryWrite (this : BinaryWriter) (src : list byte) := trying (BNWriteData src) this.
(** Modelled from the spec: [bool TryWrite(const std::string& str)]. *)
Definition TryWrite_string (this : BinaryWriter) (str : string) :=
  trying (BNWriteData (String.list_byte_of_string str)) this.
(** Modelled from the spec: [bool TryWrite8(uint8_t val)]. *)
Definition TryWrite8 (this : BinaryWriter) (val : Z) := trying (write_int 1 LittleEndian val) this.
(** Modelled from the spec: [bool TryWrite16(uint16_t val)]. *)
Definition TryWrite16 (this : BinaryWriter) (val : Z) :=
  trying (write_int 2 (GetEndianness this) val) this.
(** Modelled from the spec: [bool TryWrite32(uint32_t val)]. *)
Definition TryWrite32 (this : BinaryWriter) (val : Z) :=
  trying (write_int 4 (GetEndianness this) val) this.
(** Modelled from the spec: [bool TryWrite64(uint64_t val)]. *)
Definition TryWrite64 (this : BinaryWriter) (val : Z) :=
  trying (write_int 8 (GetEndianness this) val) this.
(** Modelled from the spec: [bool TryWriteLE16(uint16_t val)]. *)
Definition TryWriteLE16 (this : BinaryWriter) (val : Z) := trying (write_int 2 LittleEndian val) this.
(** Modelled from the spec: [bool TryWriteLE32(uint32_t val)]. *)
Definition TryWriteLE32 (this : BinaryWriter) (val : Z) := trying (write_int 4 LittleEndian val) this.
(** Modelled from the spec: [bool TryWriteLE64(uint64_t val)]. *)
Definition TryWriteLE64 (this : BinaryWriter) (val : Z) := trying (write_int 8 LittleEndian val) this.
(** Modelled from the spec: [bool TryWriteBE16(uint16_t val)]. *)
Definition TryWriteBE16 (this : BinaryWriter) (val : Z) := trying (write_int 2 BigEndian val) this.
(** Modelled from the spec: [bool TryWriteBE32(uint32_t val)]. *)
Definition TryWriteBE32 (this : BinaryWriter) (val : Z) := trying (write_int 4 BigEndian val) this.
(** Modelled from the spec: [bool TryWriteBE64(uint64_t val)]. *)
Definition TryWriteBE64 (this : BinaryWriter) (val : Z) := trying (write_int 8 BigEndian val) this.

(** Every write operation, by name.  [Write(const DataBuffer&)] writes the
    bytes of the buffer, like [Write(const void*, size_t)]. *)
Inductive write_op : Type :=
  | OpWrite (src : list byte) | OpWriteString (str : string)
  | OpWrite8 (val : Z) | OpWrite16 (val : Z) | OpWrite32 (val : Z) | OpWrite64 (val : Z)
  | OpWriteLE16 (val : Z) | OpWriteLE32 (val : Z) | OpWriteLE64 (val : Z)
  | OpWriteBE16 (val : Z) | OpWriteBE32 (val : Z) | OpWriteBE64 (val : Z).

(** The number of bytes an operation writes. *)
Definition requested (o : write_op) : nat :=
  match o with
  | OpWrite src => length src
  | OpWriteString str => length (String.list_byte_of_string str)
  | OpWrite8 _ => 1
  | OpWrite16 _ | OpWriteLE16 _ | OpWriteBE16 _ => 2
  | OpWrite32 _ | OpWriteLE32 _ | OpWriteBE32 _ => 4
  | OpWrite64 _ | OpWriteLE64 _ | OpWriteBE64 _ => 8
  end.

(** The bytes an operation hands to the core. *)
Definition payload (o : write_op) (this : BinaryWriter) : list byte :=
  match o with
  | OpWrite src => src
  | OpWriteString str => String.list_byte_of_string str
  | OpWrite8 val => encode LittleEndian 1 val
  | OpWrite16 val => encode (GetEndianness this) 2 val
  | OpWrite32 val => encode (GetEndianness this) 4 val
  | OpWrite64 val => encode (GetEndianness this) 8 val
  | OpWriteLE16 val => encode LittleEndian 2 val
  | OpWriteLE32 val => encode LittleEndian 4 val
  | OpWriteLE64 val => encode LittleEndian 8 val
  | OpWriteBE16 val => encode BigEndian 2 val
  | OpWriteBE32 val => encode BigEndian 4 val
  | OpWriteBE64 val => encode BigEndian 8 val
  end.

Definition perform (o : write_op) (this : BinaryWriter) : outcome unit * BinaryWriter :=
  match o with
  | OpWrite src => Write this src
  | OpWriteString str => Write_string this str
  | OpWrite8 val => Write8 this val
  | OpWrite16 val => Write16 this val
  | OpWrite32 val => Write32 this val
  | OpWrite64 val => Write64 this val
  | OpWriteLE16 val => WriteLE16 this val
  | OpWriteLE32 val => WriteLE32 this val
  | OpWriteLE64 val => WriteLE64 this val
  | OpWriteBE16 val => WriteBE16 this val
  | OpWriteBE32 val => WriteBE32 this val
  | OpWriteBE64 val => WriteBE64 this val
  end.

Definition try_perform (o : write_op) (this : BinaryWriter) : bool * BinaryWriter :=
  match o with
  | OpWrite src => TryWrite this src
  | OpWriteString str => TryWrite_string this str
  | OpWrite8 val => TryWrite8 this val
  | OpWrite16 val => TryWrite16 this val
  | OpWrite32 val => TryWrite32 this val
  | OpWrite64 val => TryWrite64 this val
  | OpWriteLE16 val => TryWriteLE16 this val
  | OpWriteLE32 val => TryWriteLE32 this val
  | OpWriteLE64 val => TryWriteLE64 this val
  | OpWriteBE16 val => TryWriteBE16 this val
  | OpWriteBE32 val => TryWriteBE32 this val
  | OpWriteBE64 val => TryWriteBE64 this val
  end.

(** What a program does with a writer, [SetEndianness] apart. *)
Inductive command : Type :=
  | CSeek (offset : Z)
  | CSeekRelative (offset : Z)
  | CPerform (o : write_op)
  | CTry (o : write_op).

Definition exec (c : command) (this : BinaryWriter) : BinaryWriter :=
  match c with
  | CSeek offset => Seek this offset
  | CSeekRelative offset => SeekRelative this offset
  | CPerform o => (perform o this).2
  | CTry o => (try_perform o this).2
  end.

(** A writer on a view of three bytes at address 16. *)
Definition sample_writer : BinaryWriter :=
  Seek (new {| start := 16; contents := [Byte.x01; Byte.x02; Byte.x03] |} None) 16.

End BinaryWriter.

Module RefFrame.
Import RefCount.

(** *** What one operation can reach *)

(** The handle an operation constructs, assigns or destroys. *)
Definition target (o : op) : option hid :=
  match o with
  | OpNew _ => None
  | OpRefDefault h | OpRefFromPtr h _ | OpRefCopy h _
  | OpRefAssign h _ | OpRefAssignPtr h _ | OpRefDestroy h => Some h
  end.

(** The pointer an operation stores into its handle ([m_obj(obj)],
    [m_obj = obj]), and the one the handle held before ([oldObj], or the
    [m_obj] a destructor releases). *)
Definition new_ptr (s : state) (o : op) : option ptr :=
  match o with
  | OpRefFromPtr _ p | OpRefAssignPtr _ p => Some p
  | OpRefCopy _ src | OpRefAssign _ src => refs s !! src
  | OpNew _ | OpRefDefault _ | OpRefDestroy _ => None
  end.

Definition old_ptr (s : state) (o : op) : option ptr :=
  match o with
  | OpRefAssign h _ | OpRefAssignPtr h _ | OpRefDestroy h => refs s !! h
  | OpNew _ | OpRefDefault _ | OpRefFromPtr _ _ | OpRefCopy _ _ => None
  end.

(** The objects an operation may write: the one allocated, the one newly
    wrapped, the one let go. *)
Definition touches (s : state) (o : op) (a : addr) : Prop :=
  o = OpNew a ∨ new_ptr s o = Some (Ptr a) ∨ old_ptr s o = Some (Ptr a).

(** The calls one operation may log: at most one [AddRef], then at most one
    [Release], which alone can be followed by a [delete this]. *)
Definition addref_calls (p : option ptr) : list event :=
  match p with Some (Ptr a) => [EvAddRef a] | _ => [] end.

Definition release_calls (q : option ptr) (deleted : bool) : list event :=
  match q with
  | Some (Ptr b) => EvRelease b :: if deleted then [EvDelete b] else []
  | _ => []
  end.

(** One object with a single handle, another with two. *)
Definition two_state : state :=
  {| heap := {[ 1%positive := {| m_refs := 1 |}; 2%positive := {| m_refs := 2 |} ]};
     refs := {[ 0%nat := Ptr 1%positive; 1%nat := Ptr 2%positive; 2%nat := Ptr 2%positive ]};
     trace := [] |}.

End RefFrame.

Module BufferCodec.
Import Buffer.

(** *** Strings at the boundary to the core *)

(** [s.c_str()] as the core reads it, and a [char*] of the core as
    [std::string] reads it: the characters before the first NUL. *)
Fixpoint c_str (s : string) : string :=
  match s with
  | EmptyString => EmptyString
  | String ch rest =>
      if decide (ch = Ascii.zero) then EmptyString else String ch (c_str rest)
  end.

Section Core.

(** What the core's codecs compute is theirs to say: the text of a buffer
    and back, for the escaped and for the base64 form, and the two zlib
    transformations, which can fail. *)
Variables to_escaped to_base64 : list byte → string.
Variables decode_escaped decode_base64 : string → list byte.
Variables zlib_compress zlib_decompress : list byte → option (list byte).

(** Modelled from the spec: [BNDataBufferToEscapedString(buf)] of the core,
    a C string made from the bytes of [buf]. *)
Definition BNDataBufferToEscapedString (buf : BNDataBuffer) (c : core) : option string :=
  contents ← c !! buf; Some (to_escaped contents).

(** Modelled from the spec: [BNDecodeEscapedString(str)] of the core, a new
    buffer made from a C string. *)
Definition BNDecodeEscapedString (str : string) (c : core) : option (BNDataBuffer * core) :=
  Some (alloc (decode_escaped str) c).

(** Modelled from the spec: [BNDataBufferToBase64(buf)] of the core. *)
Definition BNDataBufferToBase64 (buf : BNDataBuffer) (c : core) : option string :=
  contents ← c !! buf; Some (to_base64 contents).

(** Modelled from the spec: [BNDecodeBase64(str)] of the core. *)
Definition BNDecodeBase64 (str : string) (c : core) : option (BNDataBuffer * core) :=
  Some (alloc (decode_base64 str) c).

(** Modelled from the spec: [BNZlibCompress(buf)] and [BNZlibDecompress(buf)]
    of the core, a new buffer, or [NULL] ([None]) when the transformation
    fails. *)
Definition BNZlib (f : list byte → option (list byte)) (buf : BNDataBuffer) (c : core)
    : option (option BNDataBuffer * core) :=
  contents ← c !! buf;
  Some (match f contents with
        | Some out => let '(b, c') := alloc out c in (Some b, c')
        | None => (None, c)
        end).

Definition BNZlibCompress := BNZlib zlib_compress.
Definition BNZlibDecompress := BNZlib zlib_decompress.

(** *** The rest of [class DataBuffer] ([databuffer.cpp]) *)

(** [string DataBuffer::ToEscapedString() const]: [string result = str;]
    reads the [char*] of the core up to its terminator. *)
Definition ToEscapedString (this : DataBuffer) (c : core) : option string :=
  str ← BNDataBufferToEscapedString (m_buffer this) c; Some (c_str str).

(** [DataBuffer DataBuffer::FromEscapedString(const string& src)]: the core is
    handed [src.c_str()]. *)
Definition FromEscapedString (src : string) (c : core) : option (DataBuffer * core) :=
  '(b, c') ← BNDecodeEscapedString (c_str src) c; Some (DataBuffer_of_handle b, c').

(** [string DataBuffer::ToBase64() const] *)
Definition ToBase64 (this : DataBuffer) (c : core) : option string :=
  str ← BNDataBufferToBase64 (m_buffer this) c; Some (c_str str).

(** [DataBuffer DataBuffer::FromBase64(const string& src)] *)
Definition FromBase64 (src : string) (c : core) : option (DataBuffer * core) :=
  '(b, c') ← BNDecodeBase64 (c_str src) c; Some (DataBuffer_of_handle b, c').

(** [output = DataBuffer(result);]: the temporary takes the buffer of the
    core, copy assignment duplicates it into [output], and the temporary is
    destroyed at the end of the statement. *)
Definition assign_from_handle (output : DataBuffer) (result : BNDataBuffer) (c : core)
    : option (DataBuffer * core) :=
  let temporary := DataBuffer_of_handle result in
  '(output', c1) ← DataBuffer_assign output temporary c;
  c2 ← DataBuffer_destroy temporary c1;
  Some (output', c2).

(** [bool DataBuffer::ZlibCompress(DataBuffer& output) const]: the buffer
    handed to the core is [output.m_buffer].  The result is the [bool]
    returned, [output] afterwards and the store. *)
Definition ZlibCompress (this output : DataBuffer) (c : core)
    : option (bool * DataBuffer * core) :=
  '(result, c1) ← BNZlibCompress (m_buffer output) c;
  match result with
  | None => Some (false, output, c1)
  | Some r => '(output', c2) ← assign_from_handle output r c1; Some (true, output', c2)
  end.

(** [bool DataBuffer::ZlibDecompress(DataBuffer& output) const] *)
Definition ZlibDecompress (this output : DataBuffer) (c : core)
    : option (bool * DataBuffer * core) :=
  '(result, c1) ← BNZlibDecompress (m_buffer output) c;
  match result with
  | None => Some (false, output, c1)
  | Some r => '(output', c2) ← assign_from_handle output r c1; Some (true, output', c2)
  end.

(** [string BinaryNinja::EscapeString(const string& s)]: a buffer of the
    [s.size()] characters at [s.c_str()], its escaped text, and the
    destructor of the buffer on return. *)
Definition EscapeString (s : string) (c : core) : option (string * core) :=
  '(buffer, c1) ← DataBuffer_of_data (String.list_byte_of_string s) c;
  result ← ToEscapedString buffer c1;
  c2 ← DataBuffer_destroy buffer c1;
  Some (result, c2).

(** [string BinaryNinja::UnescapeString(const string& s)]: the decoded
    buffer, the [string] of the [buffer.GetLength()] characters at
    [buffer.GetData()], and
    the destructor of the buffer on return. *)
Definition UnescapeString (s : string) (c : core) : option (string * core) :=
  '(buffer, c1) ← FromEscapedString s c;
  data ← GetData buffer c1;
  len ← GetLength buffer c1;
  c2 ← DataBuffer_destroy buffer c1;
  Some (String.string_of_list_byte (take len data), c2).

End Core.

(** A store with one buffer, and a transformation that doubles a buffer. *)
Definition sample_core : core := {[ 1%positive := ["a"; "b"]%byte ]}.

Definition sample_zlib (data : list byte) : option (list byte) := Some (data ++ data).

End BufferCodec.

(** * Properties *)

(** ** Machine integers *)

Lemma wrap_int_is_int z : is_int (wrap_int z).
Proof.
  unfold is_int, wrap_int, INT_MIN, INT_MAX.
  pose proof (Z.mod_pos_bound (z + 2147483648) 4294967296 ltac:(lia)). lia.
Qed.

Lemma wrap_int_id z : is_int z -> wrap_int z = z.
Proof.
  unfold is_int, wrap_int, INT_MIN, INT_MAX. intros Hz.
  rewrite Z.mod_small; lia.
Qed.

Lemma wrap_int_succ_pred z : is_int z -> wrap_int (wrap_int (z + 1) - 1) = z.
Proof.
  unfold is_int, wrap_int, INT_MIN, INT_MAX. intros Hz.
  destruct (Z.eq_dec z 2147483647) as [-> | Hne]; [reflexivity |].
  rewrite (Z.mod_small (z + 1 + 2147483648)) by lia.
  rewrite Z.mod_small; lia.
Qed.

Lemma wrap_int_succ_eq_1 z : is_int z -> wrap_int (z + 1) = 1 <-> z = 0.
Proof.
  unfold is_int, wrap_int, INT_MIN, INT_MAX. intros Hz. split; [| intros ->; reflexivity].
  destruct (Z.eq_dec z 2147483647) as [-> | Hne]; [discriminate |].
  rewrite Z.mod_small; lia.
Qed.

Lemma wrap_int_pred_eq_0 z : is_int z -> wrap_int (z - 1) = 0 <-> z = 1.
Proof.
  unfold is_int, wrap_int, INT_MIN, INT_MAX. intros Hz. split; [| intros ->; reflexivity].
  destruct (Z.eq_dec z (-2147483648)) as [-> | Hne]; [discriminate |].
  rewrite Z.mod_small; lia.
Qed.


(** ** Reference counting *)

Module RefCountTheory.
Import RefCount.

(** *** Counting handles *)

Lemma ref_count_empty a : ref_count a ∅ = 0%nat.
Proof. unfold ref_count. by rewrite map_filter_empty, map_size_empty. Qed.

Lemma ref_count_pos a h (R : gmap hid ptr) :
  R !! h = Some (Ptr a) → (0 < ref_count a R)%nat.
Proof.
  intros Hh. unfold ref_count.
  assert (filter (points_to a) R !! h = Some (Ptr a)) as Hf
    by (by apply map_lookup_filter_Some_2).
  pose proof (map_size_ne_0_lookup_2 (filter (points_to a) R) h (mk_is_Some _ _ Hf)).
  lia.
Qed.

Lemma ref_count_delete a h (R : gmap hid ptr) :
  (ref_count a (delete h R) + ind (R !! h = Some (Ptr a)) = ref_count a R)%nat.
Proof.
  unfold ref_count, ind. rewrite map_filter_delete, map_size_delete.
  destruct (filter (points_to a) R !! h) as [p|] eqn:Hf.
  - apply map_lookup_filter_Some in Hf as [Hh Hp]. unfold points_to in Hp; simpl in Hp.
    subst p. rewrite decide_True by done.
    pose proof (ref_count_pos a h R Hh) as Hpos. unfold ref_count in Hpos. simpl. lia.
  - rewrite decide_False; [simpl; lia |].
    intros Hh. apply map_lookup_filter_None in Hf as [Hf | Hf]; [congruence |].
    by apply (Hf _ Hh).
Qed.

Lemma ref_count_insert a h p (R : gmap hid ptr) :
  (ref_count a (<[h:=p]> R) + ind (R !! h = Some (Ptr a))
   = ref_count a R + ind (p = Ptr a))%nat.
Proof.
  pose proof (ref_count_delete a h R) as Hdel.
  unfold ref_count, ind in *. rewrite map_filter_insert.
  destruct (decide (points_to a (h, p))) as [Hp | Hp]; unfold points_to in Hp; simpl in Hp.
  - rewrite (decide_True _ _ Hp).
    rewrite <- insert_delete_eq, map_size_insert_None by apply lookup_delete_eq.
    rewrite <- map_filter_delete. lia.
  - rewrite (decide_False _ _ Hp). lia.
Qed.

Lemma ref_count_insert_fresh a h p (R : gmap hid ptr) :
  R !! h = None →
  ref_count a (<[h:=p]> R) = (ref_count a R + ind (p = Ptr a))%nat.
Proof.
  intros Hh. pose proof (ref_count_insert a h p R) as Hins.
  unfold ind in *. rewrite Hh in Hins. rewrite decide_False in Hins by done. lia.
Qed.

Lemma lookup_handles_upto a n h :
  handles_upto a n !! h = if decide (h < n)%nat then Some (Ptr a) else None.
Proof.
  induction n as [| n IH]; simpl.
  - apply lookup_empty.
  - destruct (decide (n = h)) as [-> | Hne].
    + rewrite lookup_insert_eq. by rewrite decide_True by lia.
    + rewrite lookup_insert_ne, IH by done.
      repeat case_decide; done || lia.
Qed.

Lemma ref_count_handles_upto a n : ref_count a (handles_upto a n) = n.
Proof.
  induction n as [| n IH]; simpl.
  - apply ref_count_empty.
  - rewrite ref_count_insert_fresh.
    + unfold ind. rewrite decide_True by done. lia.
    + rewrite lookup_handles_upto. by rewrite decide_False by lia.
Qed.

Lemma ref_count_le_size a (R : gmap hid ptr) : (ref_count a R ≤ size R)%nat.
Proof. unfold ref_count. apply map_subseteq_size, map_filter_subseteq. Qed.

Lemma ref_count_pos_inv a (R : gmap hid ptr) :
  (0 < ref_count a R)%nat → ∃ h, R !! h = Some (Ptr a).
Proof.
  unfold ref_count. intros Hpos.
  destruct (map_size_ne_0_lookup_1 (filter (points_to a) R)) as [h [p Hf]]; [lia |].
  apply map_lookup_filter_Some in Hf as [Hh Hp]. unfold points_to in Hp; simpl in Hp.
  exists h. by subst p.
Qed.

(** *** The model at work *)

(** [T* p = new T; Ref<T> a(p); Ref<T> b(a); a = NULL; b.~Ref();]: the object
    is deleted by the last [Release], and by no call before it. *)
Example run_two_handles :
  run [OpNew 1%positive; OpRefFromPtr 0%nat (Ptr 1%positive); OpRefCopy 1%nat 0%nat;
       OpRefAssignPtr 0%nat NULL; OpRefDestroy 1%nat]
      empty_state
  = Some {| heap := ∅; refs := {[ 0%nat := NULL ]};
            trace := [EvAddRef 1%positive; EvAddRef 1%positive; EvRelease 1%positive;
                      EvRelease 1%positive; EvDelete 1%positive] |}.
Proof. vm_compute. reflexivity. Qed.

(** A handle made from a pointer to a deleted object calls [AddRef] on freed
    storage: the model has no result for it. *)
Example run_dangling :
  run [OpNew 1%positive; OpRefFromPtr 0%nat (Ptr 1%positive); OpRefDestroy 0%nat;
       OpRefFromPtr 1%nat (Ptr 1%positive)] empty_state
  = None.
Proof. vm_compute. reflexivity. Qed.

(** *** The two methods of [RefCountObject] *)

Lemma AddRef_m_refs o : m_refs (AddRef o) = wrap_int (m_refs o + 1).
Proof. reflexivity. Qed.

(** *** The invariant modulo 2^32 *)

Lemma wrap_int_add_l z d : wrap_int (wrap_int z + d) = wrap_int (z + d).
Proof.
  unfold wrap_int.
  replace ((z + 2147483648) mod 4294967296 - 2147483648 + d + 2147483648)
    with ((z + 2147483648) mod 4294967296 + d) by lia.
  rewrite Zplus_mod_idemp_l. f_equal. f_equal. lia.
Qed.

Lemma wrap_int_eq_1 z : 1 <= z <= 4294967296 → wrap_int z = 1 ↔ z = 1.
Proof.
  unfold wrap_int. intros Hz. split; [| intros ->; reflexivity].
  destruct (Z_lt_le_dec z 2147483648) as [Hlt | Hge].
  - rewrite Z.mod_small; lia.
  - replace (z + 2147483648) with (z - 2147483648 + 1 * 4294967296) by lia.
    rewrite Z_mod_plus_full, Z.mod_small; lia.
Qed.

Lemma InvM_ext H c c' : (∀ a, c a = c' a) → InvM H c → InvM H c'.
Proof.
  intros Heq [Hc Hl]. split.
  - intros a o Ha. rewrite <- Heq. by apply Hc.
  - intros a Ha. apply Hl. by rewrite Heq.
Qed.

Lemma if_AddRef_InvM p s c :
  InvM (heap s) c → live_ptr s p → (∀ a, 0 <= c a) →
  ∃ s', if_AddRef p s = Some s' ∧ refs s' = refs s ∧ InvM (heap s') (bump p 1 c).
Proof.
  intros [Hc Hl] Hp Hnn. destruct p as [| a]; simpl.
  - exists s. split; [done |]. split; [done |]. split.
    + intros a o Ha. unfold bump. rewrite decide_False by done. by apply Hc.
    + intros a. unfold bump. rewrite decide_False by done. apply Hl.
  - destruct Hp as [o Ho]. rewrite Ho. simpl. eexists. repeat split; simpl.
    + intros b o' Hb. unfold bump. destruct (decide (a = b)) as [<- | Hne].
      * rewrite lookup_insert_eq in Hb. injection Hb as <-.
        rewrite decide_True by done. rewrite AddRef_m_refs, (Hc _ _ Ho).
        apply wrap_int_add_l.
      * rewrite lookup_insert_ne in Hb by done.
        rewrite decide_False by congruence. by apply Hc.
    + intros b. unfold bump. destruct (decide (a = b)) as [<- | Hne].
      * intros _. rewrite lookup_insert_eq. eauto.
      * rewrite decide_False by congruence. rewrite lookup_insert_ne by done. apply Hl.
Qed.

Lemma if_Release_InvM p s c :
  InvM (heap s) c → (∀ a, p = Ptr a → 1 <= c a <= 4294967296) → (∀ a, 0 <= c a) →
  ∃ s', if_Release p s = Some s' ∧ refs s' = refs s ∧ InvM (heap s') (bump p (-1) c).
Proof.
  intros [Hc Hl] Hp Hnn. destruct p as [| a]; simpl.
  - exists s. split; [done |]. split; [done |]. split.
    + intros a o Ha. unfold bump. rewrite decide_False by done. by apply Hc.
    + intros a. unfold bump. rewrite decide_False by done. apply Hl.
  - specialize (Hp a eq_refl).
    destruct (Hl a ltac:(lia)) as [o Ho]. rewrite Ho. simpl.
    pose proof (Hc _ _ Ho) as Hm.
    destruct (m_refs o =? 1) eqn:Hdel.
    + apply Z.eqb_eq in Hdel. rewrite Hdel in Hm. symmetry in Hm.
      apply (proj1 (wrap_int_eq_1 _ Hp)) in Hm.
      eexists. repeat split; simpl.
      * intros b o' Hb. unfold bump. destruct (decide (a = b)) as [<- | Hne].
        -- by rewrite lookup_delete_eq in Hb.
        -- rewrite lookup_delete_ne, lookup_insert_ne in Hb by done.
           rewrite decide_False by congruence. by apply Hc.
      * intros b. unfold bump. destruct (decide (a = b)) as [<- | Hne].
        -- rewrite decide_True by done. lia.
        -- rewrite decide_False by congruence.
           rewrite lookup_delete_ne, lookup_insert_ne by done. apply Hl.
    + apply Z.eqb_neq in Hdel.
      eexists. repeat split; simpl.
      * intros b o' Hb. unfold bump. destruct (decide (a = b)) as [<- | Hne].
        -- rewrite lookup_insert_eq in Hb. injection Hb as <-. simpl.
           rewrite decide_True by done. rewrite Hm. apply wrap_int_add_l.
        -- rewrite lookup_insert_ne in Hb by done.
           rewrite decide_False by congruence. by apply Hc.
      * intros b. unfold bump. destruct (decide (a = b)) as [<- | Hne].
        -- intros _. rewrite lookup_insert_eq. eauto.
        -- rewrite decide_False by congruence. rewrite lookup_insert_ne by done. apply Hl.
Qed.

Lemma Inv_count_le s a o : Inv s → heap s !! a = Some o →
  Z.of_nat (ref_count a (refs s)) <= INT_MAX.
Proof.
  intros HI Ha. rewrite <- (inv_count s HI a o Ha).
  by destruct (inv_int s HI a o Ha).
Qed.

Lemma InvM_of_Inv s : Inv s → InvM (heap s) (λ a, Z.of_nat (ref_count a (refs s))).
Proof.
  intros HI. split.
  - intros a o Ha. rewrite wrap_int_id.
    + by apply (inv_count s HI).
    + rewrite <- (inv_count s HI a o Ha). by apply (inv_int s HI a o).
  - intros a Hpos. destruct (ref_count_pos_inv a (refs s)) as [h Hh]; [lia |].
    by apply (inv_live s HI h).
Qed.

Lemma Inv_of_InvM s :
  InvM (heap s) (λ a, Z.of_nat (ref_count a (refs s))) → handles_bounded s → Inv s.
Proof.
  intros [Hc Hl] Hb.
  assert (∀ a o, heap s !! a = Some o → m_refs o = Z.of_nat (ref_count a (refs s))) as Hcount.
  { intros a o Ha. rewrite (Hc a o Ha). apply wrap_int_id.
    specialize (Hb a). unfold is_int, INT_MIN, INT_MAX in *. lia. }
  split.
  - done.
  - intros h a Hh. apply Hl. pose proof (ref_count_pos a h _ Hh). lia.
  - intros a o Ha. rewrite (Hcount a o Ha).
    specialize (Hb a). unfold is_int, INT_MIN, INT_MAX in *. lia.
Qed.

(** *** One step

    Constructors, assignments and the destructor share one shape: the handle
    takes a new pointer, [AddRef] runs on the new one, [Release] on the old
    one (a constructor has no old pointer, the destructor no new one). *)

Lemma retarget_InvM s h p (old : option ptr) :
  Inv s → refs s !! h = old → live_ptr s p →
  ∃ s', (s2 ← if_AddRef p (set_refs (insert h p) s); if_Release (default NULL old) s2) = Some s' ∧
        refs s' = <[h:=p]> (refs s) ∧
        InvM (heap s') (λ a, Z.of_nat (ref_count a (<[h:=p]> (refs s)))).
Proof.
  intros HI Hold Hp.
  pose proof (InvM_of_Inv s HI) as HM.
  destruct (if_AddRef_InvM p (set_refs (insert h p) s) _ HM Hp) as (s2 & Hs2 & Hr2 & HM2);
    [intros; lia |].
  destruct (if_Release_InvM (default NULL old) s2 _ HM2) as (s3 & Hs3 & Hr3 & HM3).
  - intros a Ha. destruct old as [q |]; simpl in Ha; [subst q | done].
    pose proof (ref_count_pos a h _ Hold).
    destruct (inv_live s HI h a Hold) as [o Ho].
    pose proof (Inv_count_le s a o HI Ho). unfold INT_MAX in *.
    unfold bump. case_decide; lia.
  - intros a. unfold bump. case_decide; lia.
  - exists s3. rewrite Hs2. simpl. split; [done |]. split.
    + by rewrite Hr3, Hr2.
    + eapply InvM_ext; [| exact HM3]. intros a. simpl.
      pose proof (ref_count_insert a h p (refs s)) as Hins. unfold ind, bump in *.
      rewrite Hold in Hins.
      destruct old as [[| b] |]; simpl; repeat case_decide; simplify_eq; lia.
Qed.

Lemma Inv_new_object s a : Inv s → heap s !! a = None →
  Inv (set_heap (insert a RefCountObject_new) s).
Proof.
  intros HI Ha. split; simpl.
  - intros b o Hb. destruct (decide (a = b)) as [<- | Hne].
    + rewrite lookup_insert_eq in Hb. injection Hb as <-. simpl.
      destruct (ref_count a (refs s)) as [| n] eqn:Hn; [done |].
      destruct (ref_count_pos_inv a (refs s)) as [h Hh]; [lia |].
      destruct (inv_live s HI h a Hh) as [o Ho]. congruence.
    + rewrite lookup_insert_ne in Hb by done. by apply (inv_count s HI).
  - intros h b Hh. destruct (decide (a = b)) as [<- | Hne].
    + rewrite lookup_insert_eq. eauto.
    + rewrite lookup_insert_ne by done. by apply (inv_live s HI h).
  - intros b o Hb. destruct (decide (a = b)) as [<- | Hne].
    + rewrite lookup_insert_eq in Hb. injection Hb as <-.
      unfold is_int, INT_MIN, INT_MAX. simpl. lia.
    + rewrite lookup_insert_ne in Hb by done. by apply (inv_int s HI b).
Qed.

Lemma bind_Some_r {A} (m : option A) : (x ← m; Some x) = m.
Proof. by destruct m. Qed.

(** C1 (as amended): as long as no object has more than [INT_MAX] live
    handles, every [Ref<T>] operation (default construction, construction
    from a pointer, copy construction, assignment from a [Ref] or from a
    pointer, destruction), used on a live handle and with pointers to objects
    that have not been deleted, runs to completion and keeps the invariant:
    the [m_refs] of every object equals the number of live handles that wrap
    it, and an object with at least one such handle has not been deleted. *)
Theorem Ref_invariant_step s o :
  Inv s → valid_op s o →
  ∃ s', step o s = Some s' ∧ (handles_bounded s' → Inv s').
Proof.
  intros HI Hv. destruct o as [a | h | h p | h src | h src | h p | h]; simpl in *.
  - (* new T *)
    unfold new_object. rewrite Hv. eexists. split; [done |].
    intros _. by apply Inv_new_object.
  - (* Ref<T>() *)
    destruct (retarget_InvM s h NULL None HI Hv I) as (s' & Hs' & Hr & HM).
    simpl in Hs'. injection Hs' as <-. unfold Ref_default.
    eexists. split; [done |]. intros Hb. by apply Inv_of_InvM.
  - (* Ref<T>(T* obj) *)
    destruct Hv as [Hh Hp].
    destruct (retarget_InvM s h p None HI Hh Hp) as (s' & Hs' & Hr & HM).
    simpl in Hs'. rewrite bind_Some_r in Hs'. unfold Ref_from_ptr.
    exists s'. split; [done |]. intros Hb. apply Inv_of_InvM; [| done]. by rewrite Hr.
  - (* Ref<T>(const Ref<T>& obj) *)
    destruct Hv as [Hh [p Hsrc]].
    assert (live_ptr s p) as Hp.
    { destruct p as [| a]; [done |]. by apply (inv_live s HI src). }
    destruct (retarget_InvM s h p None HI Hh Hp) as (s' & Hs' & Hr & HM).
    simpl in Hs'. rewrite bind_Some_r in Hs'. unfold Ref_copy. rewrite Hsrc. simpl.
    exists s'. split; [done |]. intros Hb. apply Inv_of_InvM; [| done]. by rewrite Hr.
  - (* operator=(const Ref<T>& obj) *)
    destruct Hv as [[q Hh] [p Hsrc]].
    assert (live_ptr s p) as Hp.
    { destruct p as [| a]; [done |]. by apply (inv_live s HI src). }
    destruct (retarget_InvM s h p (Some q) HI Hh Hp) as (s' & Hs' & Hr & HM).
    simpl in Hs'. unfold Ref_assign. rewrite Hh, Hsrc. simpl.
    exists s'. split; [done |]. intros Hb. apply Inv_of_InvM; [| done]. by rewrite Hr.
  - (* operator=(T* obj) *)
    destruct Hv as [[q Hh] Hp].
    destruct (retarget_InvM s h p (Some q) HI Hh Hp) as (s' & Hs' & Hr & HM).
    simpl in Hs'. unfold Ref_assign_ptr. rewrite Hh. simpl.
    exists s'. split; [done |]. intros Hb. apply Inv_of_InvM; [| done]. by rewrite Hr.
  - (* ~Ref<T>() *)
    destruct Hv as [q Hh]. unfold Ref_destroy. rewrite Hh. simpl.
    pose proof (InvM_of_Inv s HI) as HM.
    destruct (if_Release_InvM q s _ HM) as (s' & Hs' & Hr & HM').
    + intros a ->. pose proof (ref_count_pos a h _ Hh).
      destruct (inv_live s HI h a Hh) as [o Ho].
      pose proof (Inv_count_le s a o HI Ho). unfold INT_MAX in *. lia.
    + intros; lia.
    + rewrite Hs'. simpl. eexists. split; [done |].
      intros Hb. apply Inv_of_InvM; [| done]. simpl. rewrite Hr.
      eapply InvM_ext; [| exact HM']. intros a. simpl.
      pose proof (ref_count_delete a h (refs s)) as Hdel. unfold ind, bump in *.
      rewrite Hh in Hdel. repeat case_decide; simplify_eq; lia.
Qed.

(** *** The count at [INT_MAX] *)

Lemma many_INT_MAX : Z.of_nat many = INT_MAX.
Proof. unfold many. apply Z2Nat.id. unfold INT_MAX. lia. Qed.

Lemma many_pos : (0 < many)%nat.
Proof. pose proof many_INT_MAX. unfold INT_MAX in *. lia. Qed.

Local Opaque many.

Lemma Inv_full_state : Inv full_state.
Proof.
  unfold full_state. split; cbn [heap refs].
  - intros a o Ha. apply lookup_singleton_Some in Ha as [<- <-]. cbn [m_refs].
    by rewrite ref_count_handles_upto, many_INT_MAX.
  - intros h a Hh. rewrite lookup_handles_upto in Hh.
    case_decide; [| done]. injection Hh as <-. rewrite lookup_singleton_eq. eauto.
  - intros a o Ha. apply lookup_singleton_Some in Ha as [<- <-]. cbn [m_refs].
    unfold is_int, INT_MIN, INT_MAX. lia.
Qed.

Lemma Ref_copy_full_state :
  Ref_copy many 0%nat full_state =
  Some {| heap := <[1%positive := {| m_refs := INT_MIN |}]> (heap full_state);
          refs := <[many := Ptr 1%positive]> (refs full_state);
          trace := [EvAddRef 1%positive] |}.
Proof.
  unfold Ref_copy, full_state. cbn [heap refs trace].
  rewrite lookup_handles_upto, decide_True by apply many_pos.
  cbn [mbind option_bind if_AddRef call_AddRef set_refs heap refs trace].
  rewrite lookup_singleton_eq. reflexivity.
Qed.

(** C1 (as stated) fails where the count passes [INT_MAX]: copying a handle
    of an object that already has 2^31 - 1 of them leaves [m_refs] at
    [INT_MIN], with 2^31 live handles. *)
Lemma Ref_invariant_overflow :
  Inv full_state ∧ valid_op full_state (OpRefCopy many 0%nat) ∧
  ∃ s' o, step (OpRefCopy many 0%nat) full_state = Some s' ∧
          heap s' !! 1%positive = Some o ∧ m_refs o = -2147483648 ∧
          Z.of_nat (ref_count 1%positive (refs s')) = 2147483648 ∧
          ¬ Inv s'.
Proof.
  split; [apply Inv_full_state |]. split.
  { unfold valid_op, full_state. cbn [refs]. rewrite !lookup_handles_upto.
    rewrite decide_False by lia. rewrite decide_True by apply many_pos. eauto. }
  eexists. exists {| m_refs := INT_MIN |}.
  split; [apply Ref_copy_full_state |]. cbn [heap refs].
  assert (Z.of_nat (ref_count 1%positive (<[many:=Ptr 1%positive]> (refs full_state)))
          = 2147483648) as Hcount.
  { unfold full_state. cbn [refs]. rewrite ref_count_insert_fresh.
    - rewrite ref_count_handles_upto. unfold ind. rewrite decide_True by done.
      pose proof many_INT_MAX. unfold INT_MAX in *. lia.
    - rewrite lookup_handles_upto. by rewrite decide_False by lia. }
  split; [apply lookup_insert_eq |]. split; [reflexivity |]. split; [exact Hcount |].
  intros HI. pose proof (inv_count _ HI 1%positive _ (lookup_insert_eq _ _ _)) as Hc.
  cbn [heap refs m_refs] in Hc. rewrite Hcount in Hc. discriminate Hc.
Qed.

Lemma Inv_one_state : Inv one_state.
Proof.
  unfold one_state. split; cbn [heap refs].
  - intros a o Ha. apply lookup_singleton_Some in Ha as [<- <-]. reflexivity.
  - intros h a Hh. apply lookup_singleton_Some in Hh as [<- [= <-]].
    rewrite lookup_singleton_eq. eauto.
  - intros a o Ha. apply lookup_singleton_Some in Ha as [<- <-]. cbn [m_refs].
    unfold is_int, INT_MIN, INT_MAX. lia.
Qed.

Lemma Ref_invariant_step_witness :
  Inv one_state ∧ valid_op one_state (OpRefCopy 1%nat 0%nat) ∧
  ∃ s', step (OpRefCopy 1%nat 0%nat) one_state = Some s' ∧
        heap s' !! 1%positive = Some {| m_refs := 2 |} ∧ Inv s'.
Proof.
  split; [apply Inv_one_state |].
  split; [split; [reflexivity | eexists; reflexivity] |].
  destruct (Ref_invariant_step one_state (OpRefCopy 1%nat 0%nat)) as (s' & Hs' & HI).
  - apply Inv_one_state.
  - split; [reflexivity | eexists; reflexivity].
  - exists s'. split; [exact Hs' |].
    injection Hs' as Hs'. subst s'. split; [reflexivity |].
    apply HI. intros a. etransitivity.
    + apply inj_le. apply ref_count_le_size.
    + vm_compute. discriminate.
Defined.

(** *** [AddRef] and [Release] *)

(** C2 (as amended): a new [RefCountObject] starts with [m_refs = 0];
    [AddRef] adds one to [m_refs] in 32-bit two's-complement arithmetic
    (exactly one below [INT_MAX], and from [INT_MAX] the count wraps to
    [INT_MIN]) and never deletes the object; [Release] subtracts one in the
    same arithmetic (exactly one above [INT_MIN]) and deletes the object if
    and only if the count before the call was 1, which is when the
    decremented count is zero.  The [WIN32] branches do the same. *)
Theorem RefCountObject_methods (this : RefCountObject) :
  is_int (m_refs this) →
  m_refs RefCountObject_new = 0 ∧
  m_refs (AddRef this) = (if decide (m_refs this = INT_MAX) then INT_MIN else m_refs this + 1) ∧
  m_refs (Release this).1 = (if decide (m_refs this = INT_MIN) then INT_MAX else m_refs this - 1) ∧
  ((Release this).2 = true ↔ m_refs this = 1) ∧
  ((Release this).2 = true ↔ m_refs (Release this).1 = 0) ∧
  AddRef_WIN32 this = AddRef this ∧ Release_WIN32 this = Release this ∧
  (∀ s a, heap s !! a = Some this →
     call_AddRef (Ptr a) s =
       Some {| heap := <[a := AddRef this]> (heap s); refs := refs s;
               trace := trace s ++ [EvAddRef a] |} ∧
     call_Release (Ptr a) s =
       Some {| heap := if (Release this).2 then delete a (heap s)
                       else <[a := (Release this).1]> (heap s);
               refs := refs s;
               trace := trace s ++ EvRelease a :: if (Release this).2 then [EvDelete a] else [] |}).
Proof.
  intros Hint. destruct this as [m]. simpl in *.
  assert ((m =? 1) = true ↔ wrap_int (m + -1) = 0) as Hzero.
  { rewrite Z.eqb_eq. symmetry. by apply (wrap_int_pred_eq_0 m). }
  split; [done |]. split; [| split; [| split; [| split; [| split; [| split]]]]].
  - case_decide as Hm; [by subst m |].
    apply wrap_int_id. unfold is_int, INT_MIN, INT_MAX in *. lia.
  - case_decide as Hm; [by subst m |].
    apply wrap_int_id. unfold is_int, INT_MIN, INT_MAX in *. lia.
  - apply Z.eqb_eq.
  - exact Hzero.
  - reflexivity.
  - unfold Release_WIN32, Release. simpl. f_equal.
    apply eq_true_iff_eq. rewrite Z.eqb_eq. by rewrite Hzero.
  - intros s a Ha. unfold call_AddRef, call_Release. rewrite Ha. simpl. split; [done |].
    destruct (m =? 1); simpl.
    + unfold log, set_heap. simpl. rewrite delete_insert_eq, <- app_assoc. done.
    + done.
Qed.

Lemma RefCountObject_methods_witness :
  is_int 1 ∧ m_refs (AddRef {| m_refs := 1 |}) = 2 ∧ (Release {| m_refs := 1 |}).2 = true.
Proof.
  assert (is_int (m_refs {| m_refs := 1 |})) as Hint
    by (unfold is_int, INT_MIN, INT_MAX; simpl; lia).
  destruct (RefCountObject_methods {| m_refs := 1 |} Hint) as (_ & Hadd & _ & Hdel & _).
  split; [exact Hint |]. split; [exact Hadd |]. by apply Hdel.
Defined.

(** C2 (as stated) fails at the two ends of [int]: from [INT_MAX], [AddRef]
    leaves [INT_MIN], not [INT_MAX + 1]; from [INT_MIN], [Release] leaves
    [INT_MAX], not [INT_MIN - 1]. *)
Lemma m_refs_wraps :
  is_int INT_MAX ∧
  m_refs (AddRef {| m_refs := INT_MAX |}) = -2147483648 ∧
  m_refs (AddRef {| m_refs := INT_MAX |}) ≠ m_refs {| m_refs := INT_MAX |} + 1 ∧
  is_int INT_MIN ∧
  m_refs (Release {| m_refs := INT_MIN |}).1 = 2147483647 ∧
  m_refs (Release {| m_refs := INT_MIN |}).1 ≠ m_refs {| m_refs := INT_MIN |} - 1.
Proof.
  unfold is_int, INT_MIN, INT_MAX.
  split; [lia |]. split; [reflexivity |]. split; [discriminate |].
  split; [lia |]. split; [reflexivity | discriminate].
Qed.

(** *** Self-assignment *)

(** C8: for a live handle [this] whose wrapped pointer is [p], both
    [this = this] and [this = p] run to completion and leave the handles
    (so the wrapped pointer of [this]) and the heap (so the count of the
    referenced object, which is not deleted) as they were; the only calls are
    [AddRef] and then [Release] on the object.  The referenced object is one
    that has not been deleted and whose count, an [int], is not zero: the
    reference held by [this] is counted. *)
Theorem Ref_self_assign s this p :
  refs s !! this = Some p →
  (∀ a, p = Ptr a → ∃ o, heap s !! a = Some o ∧ is_int (m_refs o) ∧ m_refs o ≠ 0) →
  ∃ s', Ref_assign this this s = Some s' ∧ Ref_assign_ptr this p s = Some s' ∧
        refs s' = refs s ∧ heap s' = heap s ∧
        trace s' = trace s ++ match p with NULL => [] | Ptr a => [EvAddRef a; EvRelease a] end.
Proof.
  intros Hh Hobj. unfold Ref_assign, Ref_assign_ptr. rewrite Hh. simpl.
  destruct p as [| a]; simpl.
  - eexists. split; [done |]. split; [done |]. simpl.
    split; [by apply insert_id |]. split; [done |]. by rewrite app_nil_r.
  - destruct (Hobj a eq_refl) as (o & Ho & Hint & Hnz). rewrite Ho. simpl.
    rewrite lookup_insert_eq. simpl.
    assert ((wrap_int (m_refs o + 1) =? 1) = false) as ->.
    { apply Z.eqb_neq. by rewrite wrap_int_succ_eq_1. }
    eexists. split; [done |]. split; [done |]. simpl.
    split; [by apply insert_id |]. split.
    + rewrite insert_insert_eq. apply insert_id. rewrite Ho. f_equal.
      destruct o as [m]. simpl in *. f_equal. symmetry. by apply (wrap_int_succ_pred m).
    + by rewrite <- app_assoc.
Qed.

Lemma Ref_self_assign_witness :
  ∃ s', Ref_assign 0%nat 0%nat one_state = Some s' ∧
        Ref_assign_ptr 0%nat (Ptr 1%positive) one_state = Some s' ∧
        refs s' = refs one_state ∧ heap s' = heap one_state ∧
        trace s' = trace one_state ++ [EvAddRef 1%positive; EvRelease 1%positive].
Proof.
  apply (Ref_self_assign one_state 0%nat (Ptr 1%positive)).
  - reflexivity.
  - intros a [= <-]. exists {| m_refs := 1 |}.
    split; [reflexivity |]. split; [| discriminate].
    unfold is_int, INT_MIN, INT_MAX. simpl. lia.
Defined.

(** Under the invariant, every live handle satisfies the condition of
    [Ref_self_assign]. *)
Lemma Inv_handle_counted s h a :
  Inv s → refs s !! h = Some (Ptr a) →
  ∃ o, heap s !! a = Some o ∧ is_int (m_refs o) ∧ m_refs o ≠ 0.
Proof.
  intros HI Hh. destruct (inv_live s HI h a Hh) as [o Ho]. exists o.
  split; [done |]. split; [by apply (inv_int s HI a) |].
  rewrite (inv_count s HI a o Ho). pose proof (ref_count_pos a h _ Hh). lia.
Qed.

(** *** Null handles *)

(** C9 (as amended): every operation of [Ref<T>] other than [operator*]
    runs to completion on a null handle.  A default-constructed handle holds
    [NULL]; constructing a handle from [NULL], copying a handle that holds
    [NULL], assigning [NULL] (or a handle that holds [NULL]) to a handle that
    holds [NULL], and destroying a handle that holds [NULL] make no [AddRef]
    or [Release] call; when exactly one side of either assignment is [NULL],
    the one call made is on the other, non-null pointer; [operator!] returns
    true exactly when the wrapped pointer is [NULL], and [GetPtr], the
    conversion to [T*] and [operator->] return the wrapped pointer.
    [operator*] is [return *m_obj;]: undefined on a handle that holds [NULL],
    the object wrapped otherwise. *)
Theorem Ref_null_total s this obj p :
  (∃ s', Ref_default this s = Some s' ∧ no_calls s s' ∧ GetPtr this s' = Some NULL) ∧
  (∃ s', Ref_from_ptr this NULL s = Some s' ∧ no_calls s s' ∧ GetPtr this s' = Some NULL) ∧
  (refs s !! obj = Some NULL →
     ∃ s', Ref_copy this obj s = Some s' ∧ no_calls s s' ∧ GetPtr this s' = Some NULL) ∧
  (refs s !! this = Some NULL →
     ∃ s', Ref_assign_ptr this NULL s = Some s' ∧ no_calls s s' ∧ refs s' = refs s) ∧
  (refs s !! this = Some NULL → refs s !! obj = Some NULL →
     ∃ s', Ref_assign this obj s = Some s' ∧ no_calls s s' ∧ refs s' = refs s) ∧
  (refs s !! this = Some NULL →
     ∃ s', Ref_destroy this s = Some s' ∧ no_calls s s' ∧ refs s' = delete this (refs s)) ∧
  (∀ a o, refs s !! this = Some NULL → heap s !! a = Some o →
     ∃ s', Ref_assign_ptr this (Ptr a) s = Some s' ∧ trace s' = trace s ++ [EvAddRef a]) ∧
  (∀ a o, refs s !! this = Some (Ptr a) → heap s !! a = Some o →
     ∃ s', Ref_assign_ptr this NULL s = Some s' ∧
           trace s' = trace s ++ EvRelease a :: if (Release o).2 then [EvDelete a] else []) ∧
  (∀ a o, refs s !! this = Some NULL → refs s !! obj = Some (Ptr a) → heap s !! a = Some o →
     ∃ s', Ref_assign this obj s = Some s' ∧ refs s' = <[this := Ptr a]> (refs s) ∧
           trace s' = trace s ++ [EvAddRef a]) ∧
  (∀ a o, refs s !! this = Some (Ptr a) → refs s !! obj = Some NULL → heap s !! a = Some o →
     ∃ s', Ref_assign this obj s = Some s' ∧ refs s' = <[this := NULL]> (refs s) ∧
           trace s' = trace s ++ EvRelease a :: if (Release o).2 then [EvDelete a] else []) ∧
  (refs s !! this = Some p →
     Ref_not this s = Some (bool_decide (p = NULL)) ∧
     (Ref_not this s = Some true ↔ p = NULL) ∧
     GetPtr this s = Some p ∧ Ref_to_ptr this s = Some p ∧ Ref_arrow this s = Some p) ∧
  (refs s !! this = Some NULL → Ref_deref this s = None) ∧
  (∀ a, refs s !! this = Some (Ptr a) → is_Some (heap s !! a) → Ref_deref this s = Some a).
Proof.
  unfold no_calls, GetPtr, Ref_to_ptr, Ref_arrow, Ref_not, Ref_deref.
  split; [| split; [| split; [| split; [| split; [| split; [| split; [| split;
    [| split; [| split; [| split; [| split]]]]]]]]]]].
  - eexists. split; [done |]. simpl. by rewrite lookup_insert_eq.
  - eexists. split; [done |]. simpl. by rewrite lookup_insert_eq.
  - intros Hobj. unfold Ref_copy. rewrite Hobj. simpl.
    eexists. split; [done |]. simpl. by rewrite lookup_insert_eq.
  - intros Hthis. unfold Ref_assign_ptr. rewrite Hthis. simpl.
    eexists. split; [done |]. simpl. split; [done |]. by apply insert_id.
  - intros Hthis Hobj. unfold Ref_assign. rewrite Hthis, Hobj. simpl.
    eexists. split; [done |]. simpl. split; [done |]. by apply insert_id.
  - intros Hthis. unfold Ref_destroy. rewrite Hthis. simpl.
    eexists. split; [done |]. done.
  - intros a o Hthis Ha. unfold Ref_assign_ptr. rewrite Hthis. simpl. rewrite Ha. simpl.
    eexists. split; [done |]. done.
  - intros a o Hthis Ha. unfold Ref_assign_ptr. rewrite Hthis. simpl. rewrite Ha. simpl.
    eexists. split; [done |]. destruct (m_refs o =? 1); simpl; [| done].
    by rewrite <- app_assoc.
  - intros a o Hthis Hobj Ha. unfold Ref_assign. rewrite Hthis, Hobj. simpl.
    rewrite Ha. simpl. eexists. split; [done |]. done.
  - intros a o Hthis Hobj Ha. unfold Ref_assign. rewrite Hthis, Hobj. simpl.
    rewrite Ha. simpl. eexists. split; [done |].
    destruct (m_refs o =? 1); simpl; (split; [done |]); [| done].
    by rewrite <- app_assoc.
  - intros Hthis. rewrite Hthis. simpl. split; [done |]. split; [| done].
    split.
    + intros [= Hb]. by apply bool_decide_eq_true in Hb.
    + intros ->. done.
  - intros Hthis. by rewrite Hthis.
  - intros a Hthis [o Ho]. rewrite Hthis. simpl. by rewrite Ho.
Qed.

Lemma Ref_null_total_witness :
  ∃ s', Ref_assign 0%nat 1%nat null_state = Some s' ∧
        refs s' = <[0%nat := Ptr 1%positive]> (refs null_state) ∧
        trace s' = [EvAddRef 1%positive] ∧
        Ref_deref 0%nat null_state = None.
Proof.
  destruct (Ref_null_total null_state 0%nat 1%nat NULL)
    as (_ & _ & _ & _ & _ & _ & _ & _ & Hassign & _ & _ & Hderef & _).
  destruct (Hassign 1%positive {| m_refs := 1 |} eq_refl eq_refl eq_refl)
    as (s' & Hs & Hrefs & Htrace).
  exists s'. split; [exact Hs |]. split; [exact Hrefs |]. split; [exact Htrace |].
  apply Hderef. reflexivity.
Defined.

(** C9 (as stated) fails at [operator*]: a default-constructed handle holds
    [NULL], and [*m_obj] on it is undefined. *)
Lemma Ref_deref_null :
  ∃ s, Ref_default 0%nat empty_state = Some s ∧ GetPtr 0%nat s = Some NULL ∧
       Ref_not 0%nat s = Some true ∧ Ref_deref 0%nat s = None.
Proof. eexists. split; [reflexivity |]. split; [reflexivity |]. split; reflexivity. Qed.

End RefCountTheory.

(** ** Data buffers *)

Module BufferTheory.
Import Buffer.

Lemma alloc_fresh contents (c : core) : c !! (alloc contents c).1 = None.
Proof. simpl. apply not_elem_of_dom. apply is_fresh. Qed.

(** A mutator writes the buffer of [this] and no other. *)
Lemma mutate_frame m this (c c' : core) b :
  mutate m this c = Some c' → b ≠ m_buffer this → c' !! b = c !! b.
Proof.
  intros Hm Hne.
  destruct m; simpl in Hm;
    unfold SetSize, Clear, AppendByte, Append, Append_buffer, index_set, GetData,
      BNSetDataBufferLength, BNClearDataBuffer, BNAppendDataBufferContents,
      BNAppendDataBuffer, BNGetDataBufferContents in Hm;
    destruct (c !! m_buffer this) as [d |] eqn:Hd; simpl in Hm; try discriminate.
  1-3, 5: injection Hm as <-; by rewrite lookup_insert_ne.
  - destruct (c !! m_buffer buf); simpl in Hm; [| discriminate].
    injection Hm as <-. by rewrite lookup_insert_ne.
  - case_decide; [| discriminate]. injection Hm as <-. by rewrite lookup_insert_ne.
Qed.

(** On live buffers (and, for [operator[]], inside the buffer) a mutator
    returns. *)
Lemma mutate_total m this (c : core) :
  is_Some (c !! m_buffer this) →
  (∀ buf, m = MAppendBuffer buf → is_Some (c !! m_buffer buf)) →
  (∀ offset val d, m = MIndexSet offset val → c !! m_buffer this = Some d →
     (offset < length d)%nat) →
  is_Some (mutate m this c).
Proof.
  intros [d Hd] Hbuf Hidx.
  destruct m; simpl;
    unfold SetSize, Clear, AppendByte, Append, Append_buffer, index_set, GetData,
      BNSetDataBufferLength, BNClearDataBuffer, BNAppendDataBufferContents,
      BNAppendDataBuffer, BNGetDataBufferContents;
    rewrite Hd; simpl; eauto.
  - destruct (Hbuf buf eq_refl) as [e ->]. simpl. eauto.
  - rewrite decide_True by (by eapply Hidx). eauto.
Qed.

(** [DataBuffer a("ab", 2); DataBuffer b(a); b.AppendByte('c'); a[0] = 'z';] *)
Example copy_then_mutate :
  ('(a, c0) ← DataBuffer_of_data ["a"; "b"]%byte ∅;
   '(b, c1) ← DataBuffer_copy a c0;
   c2 ← AppendByte b "c"%byte c1;
   c3 ← index_set a 0%nat "z"%byte c2;
   Some (GetData a c3, GetData b c3))
  = Some (Some ["z"; "b"]%byte, Some ["a"; "b"; "c"]%byte).
Proof. vm_compute. reflexivity. Qed.

(** The copy constructor: a new buffer with the same contents. *)
Lemma DataBuffer_copy_spec buf (c : core) d :
  c !! m_buffer buf = Some d →
  ∃ new c', DataBuffer_copy buf c = Some (new, c') ∧
            m_buffer new ≠ m_buffer buf ∧
            GetData new c' = Some d ∧ GetData buf c' = Some d ∧
            GetLength new c' = Some (length d) ∧ GetLength buf c' = Some (length d).
Proof.
  intros Hd. unfold DataBuffer_copy, BNDuplicateDataBuffer. rewrite Hd. simpl.
  pose proof (alloc_fresh d c) as Hf. simpl in Hf.
  assert (fresh (dom c) ≠ m_buffer buf) as Hne by congruence.
  eexists _, _. split; [done |]. simpl.
  unfold GetData, GetLength, BNGetDataBufferContents, BNGetDataBufferLength. simpl.
  rewrite lookup_insert_eq, lookup_insert_ne, Hd by done. done.
Qed.

(** Copy assignment between two different buffers. *)
Lemma DataBuffer_assign_spec this buf (c : core) d :
  is_Some (c !! m_buffer this) → c !! m_buffer buf = Some d →
  m_buffer this ≠ m_buffer buf →
  ∃ new c', DataBuffer_assign this buf c = Some (new, c') ∧
            m_buffer new ≠ m_buffer buf ∧
            GetData new c' = Some d ∧ GetData buf c' = Some d ∧
            GetLength new c' = Some (length d) ∧ GetLength buf c' = Some (length d).
Proof.
  intros [e He] Hd Hne.
  unfold DataBuffer_assign, BNFreeDataBuffer, BNDuplicateDataBuffer.
  rewrite He. simpl. rewrite lookup_delete_ne, Hd by done. simpl.
  pose proof (alloc_fresh d (delete (m_buffer this) c)) as Hf. simpl in Hf.
  assert (fresh (dom (delete (m_buffer this) c)) ≠ m_buffer buf) as Hne'.
  { intros Heq. rewrite Heq, lookup_delete_ne, Hd in Hf by done. discriminate. }
  eexists _, _. split; [done |]. simpl.
  unfold GetData, GetLength, BNGetDataBufferContents, BNGetDataBufferLength. simpl.
  rewrite lookup_insert_eq, lookup_insert_ne, lookup_delete_ne, Hd by done. done.
Qed.

(** Two buffers with different core handles are independent: a mutator
    applied to one leaves the length and the contents of the other. *)
Lemma DataBuffer_independent m x y (c c' : core) :
  m_buffer x ≠ m_buffer y → mutate m x c = Some c' →
  GetData y c' = GetData y c ∧ GetLength y c' = GetLength y c.
Proof.
  intros Hne Hm.
  unfold GetData, GetLength, BNGetDataBufferContents, BNGetDataBufferLength.
  by rewrite (mutate_frame m x c c' (m_buffer y) Hm).
Qed.

(** Value semantics of the copy constructor, and of copy assignment between
    two different buffers: the copy has the contents of the original, and
    whichever of the two is mutated afterwards, the other keeps them. *)
Lemma DataBuffer_value_semantics this buf (c : core) d :
  c !! m_buffer buf = Some d →
  (∃ new c', DataBuffer_copy buf c = Some (new, c') ∧
     GetData new c' = Some d ∧ GetData buf c' = Some d ∧
     ∀ m c'', (mutate m new c' = Some c'' → GetData buf c'' = Some d) ∧
              (mutate m buf c' = Some c'' → GetData new c'' = Some d)) ∧
  (is_Some (c !! m_buffer this) → m_buffer this ≠ m_buffer buf →
   ∃ new c', DataBuffer_assign this buf c = Some (new, c') ∧
     GetData new c' = Some d ∧ GetData buf c' = Some d ∧
     ∀ m c'', (mutate m new c' = Some c'' → GetData buf c'' = Some d) ∧
              (mutate m buf c' = Some c'' → GetData new c'' = Some d)).
Proof.
  intros Hd. split.
  - destruct (DataBuffer_copy_spec buf c d Hd) as (new & c' & Hc & Hne & Hn & Hb & _).
    exists new, c'. split; [done |]. split; [done |]. split; [done |].
    intros m c''. split; intros Hm.
    + rewrite <- Hb. by apply (DataBuffer_independent m new buf c').
    + rewrite <- Hn. by apply (DataBuffer_independent m buf new c').
  - intros Hthis Hdiff.
    destruct (DataBuffer_assign_spec this buf c d Hthis Hd Hdiff)
      as (new & c' & Hc & Hne & Hn & Hb & _).
    exists new, c'. split; [done |]. split; [done |]. split; [done |].
    intros m c''. split; intros Hm.
    + rewrite <- Hb. by apply (DataBuffer_independent m new buf c').
    + rewrite <- Hn. by apply (DataBuffer_independent m buf new c').
Qed.

(** Self-assignment frees the buffer and then duplicates the freed buffer. *)
Lemma DataBuffer_assign_self this (c : core) : DataBuffer_assign this this c = None.
Proof.
  unfold DataBuffer_assign, BNFreeDataBuffer, BNDuplicateDataBuffer.
  destruct (c !! m_buffer this) as [d |]; simpl; [| done].
  by rewrite lookup_delete_eq.
Qed.

(** C6 at its failing input: [DataBuffer b(data, len); b = b;].  The buffer
    [b] is live and holds [data]; the assignment of [b] to itself frees
    [b.m_buffer] and then calls [BNDuplicateDataBuffer] on the freed buffer,
    so no buffer equal to [b] comes out of it. *)
Theorem DataBuffer_self_assign (data : list byte) :
  ∃ b c, DataBuffer_of_data data ∅ = Some (b, c) ∧
         GetData b c = Some data ∧ GetLength b c = Some (length data) ∧
         (∃ c1, BNFreeDataBuffer (m_buffer b) c = Some c1 ∧
                BNDuplicateDataBuffer (m_buffer b) c1 = None) ∧
         DataBuffer_assign b b c = None.
Proof.
  eexists _, _. split; [reflexivity |].
  unfold GetData, GetLength, BNGetDataBufferContents, BNGetDataBufferLength,
    BNFreeDataBuffer, BNDuplicateDataBuffer. simpl.
  rewrite lookup_insert_eq. simpl. split; [done |]. split; [done |]. split.
  - eexists. split; [done |]. by rewrite lookup_delete_eq.
  - apply DataBuffer_assign_self.
Qed.

End BufferTheory.

(** ** Readers and writers *)

Module StreamTheory.
Import Stream.


Lemma view_read_in v offset len :
  in_bounds v offset len →
  ∃ data, view_read v offset len = Some data ∧ length data = len.
Proof.
  intros Hin. unfold view_read. rewrite decide_True by done.
  eexists. split; [done |].
  destruct Hin as [Hlo Hhi]. unfold GetEnd, GetLength, GetStart in *.
  rewrite length_take, length_drop. lia.
Qed.

Lemma view_read_out v offset len : ¬ in_bounds v offset len → view_read v offset len = None.
Proof. intros Hout. unfold view_read. by rewrite decide_False. Qed.

Lemma view_write_in v offset data :
  in_bounds v offset (length data) →
  ∃ v', view_write v offset data = Some v' ∧ GetStart v' = GetStart v ∧ GetEnd v' = GetEnd v ∧
        view_read v' offset (length data) = Some data.
Proof.
  intros Hin. unfold view_write. rewrite decide_True by done.
  eexists. split; [done |].
  pose proof Hin as [Hlo Hhi]. unfold GetEnd, GetLength, GetStart in *.
  assert (length (take (Z.to_nat (offset - start v)) (contents v) ++ data ++
                  drop (Z.to_nat (offset - start v) + length data) (contents v))
          = length (contents v)) as Hlen.
  { rewrite !length_app, length_take, length_drop. lia. }
  split; [done |]. split; [simpl; by rewrite Hlen |].
  unfold view_read. rewrite decide_True.
  - simpl. f_equal. rewrite drop_app_length'.
    + by rewrite take_app_length.
    + rewrite length_take. lia.
  - unfold in_bounds, GetEnd, GetLength, GetStart. simpl. rewrite Hlen. lia.
Qed.

Lemma view_write_out v offset data :
  ¬ in_bounds v offset (length data) → view_write v offset data = None.
Proof. intros Hout. unfold view_write. by rewrite decide_False. Qed.

Lemma length_encode e width val : length (encode e width val) = width.
Proof.
  assert (∀ w v, length (encode_le w v) = w) as Hle.
  { induction w as [| w IH]; intros v; simpl; [done |]. by rewrite IH. }
  destruct e; simpl; [apply Hle |]. by rewrite length_rev.
Qed.

End StreamTheory.

Module ReaderTheory.
Import Stream BinaryReader StreamTheory.

Ltac unfold_reads :=
  unfold perform, try_perform, Read, ReadString, Read8, Read16, Read32, Read64,
    ReadLE16, ReadLE32, ReadLE64, ReadBE16, ReadBE32, ReadBE64,
    TryRead, TryReadString, TryRead8, TryRead16, TryRead32, TryRead64,
    TryReadLE16, TryReadLE32, TryReadLE64, TryReadBE16, TryReadBE32, TryReadBE64,
    throwing, trying, read_int, read_string, BNReadData.

(** The bytes 01 02 03 at addresses 16 to 18: two of them read as 0x0201
    in little-endian order and as 0x0102 in big-endian order; four are not
    there. *)
Example sample_reads :
  (Read16 sample_reader).1 = Returned 513 ∧
  (ReadBE16 sample_reader).1 = Returned 258 ∧
  (Read16 (SetEndianness sample_reader BigEndian)).1 = Returned 258 ∧
  (Read32 sample_reader).1 = Thrown ReadException ∧
  (TryRead32 sample_reader).1 = (false, None) ∧
  GetOffset (Read16 sample_reader).2 = 18 ∧
  IsEndOfFile (Read sample_reader 3%nat).2 = true.
Proof. vm_compute. repeat split. Qed.

(** Inside the view, an operation returns, its [Try] twin returns [true] and
    stores the same value, and the cursor has moved past the bytes read. *)
Lemma read_in o this :
  in_bounds (m_view this) (GetOffset this) (requested o) →
  ∃ v, perform o this =
         (Returned v, set_position this (GetOffset this + Z.of_nat (requested o))) ∧
       try_perform o this =
         (true, Some v, set_position this (GetOffset this + Z.of_nat (requested o))).
Proof.
  intros Hin. destruct (view_read_in _ _ _ Hin) as (data & Hread & _).
  destruct o; cbn [requested] in *; unfold_reads; rewrite Hread; simpl; eauto.
Qed.

(** Outside, it throws [ReadException], its twin returns [false], and the
    reader is as it was. *)
Lemma read_out o this :
  ¬ in_bounds (m_view this) (GetOffset this) (requested o) →
  perform o this = (Thrown ReadException, this) ∧
  try_perform o this = (false, None, this).
Proof.
  intros Hout. pose proof (view_read_out _ _ _ Hout) as Hread.
  destruct o; cbn [requested] in *; unfold_reads; rewrite Hread; simpl; eauto.
Qed.

(** C3: every read operation ([Read], [ReadString], [Read8] to [Read64] and
    the [LE] / [BE] variants) is checked against the bounds of the view: when
    the requested range at the cursor is not fully within the view, the
    operation throws [ReadException], whose [what()] is "read out of bounds",
    and its [TryRead] twin returns [false] instead; when it is, the operation
    returns and the twin returns [true] with the same value; so a twin
    returns [true] exactly when the read succeeds. *)
Theorem BinaryReader_bounds_checked (o : read_op) (this : BinaryReader) :
  what ReadException = "read out of bounds" ∧
  (¬ in_bounds (m_view this) (GetOffset this) (requested o) →
     (perform o this).1 = Thrown ReadException ∧ (try_perform o this).1.1 = false) ∧
  (in_bounds (m_view this) (GetOffset this) (requested o) →
     ∃ v, (perform o this).1 = Returned v ∧ (try_perform o this).1 = (true, Some v)) ∧
  ((try_perform o this).1.1 = true ↔ returned (perform o this).1 = true).
Proof.
  split; [reflexivity |]. split; [| split].
  - intros Hout. destruct (read_out o this Hout) as [-> ->]. done.
  - intros Hin. destruct (read_in o this Hin) as (v & -> & ->). eauto.
  - destruct (decide (in_bounds (m_view this) (GetOffset this) (requested o))) as [Hin | Hout].
    + destruct (read_in o this Hin) as (v & -> & ->). done.
    + destruct (read_out o this Hout) as [-> ->]. done.
Qed.

End ReaderTheory.

Module WriterTheory.
Import Stream BinaryWriter StreamTheory.

Ltac unfold_writes :=
  unfold perform, try_perform, Write, Write_string, Write8, Write16, Write32, Write64,
    WriteLE16, WriteLE32, WriteLE64, WriteBE16, WriteBE32, WriteBE64,
    TryWrite, TryWrite_string, TryWrite8, TryWrite16, TryWrite32, TryWrite64,
    TryWriteLE16, TryWriteLE32, TryWriteLE64, TryWriteBE16, TryWriteBE32, TryWriteBE64,
    throwing, trying, write_int.

(** 0x0102 written to the same view in big-endian order, at address 17. *)
Example sample_writes :
  contents (m_view (WriteBE16 (Seek sample_writer 17) 258).2) = ["001"; "001"; "002"]%byte ∧
  (WriteBE16 (Seek sample_writer 18) 258).1 = Thrown WriteException ∧
  (TryWriteBE16 (Seek sample_writer 18) 258).1 = false.
Proof. vm_compute. repeat split. Qed.

Lemma length_payload o this : length (payload o this) = requested o.
Proof. destruct o; simpl; try done; apply length_encode. Qed.

Lemma perform_payload o this :
  perform o this = throwing (BNWriteData (payload o this)) this ∧
  try_perform o this = trying (BNWriteData (payload o this)) this.
Proof. by destruct o. Qed.

Lemma write_in o this :
  in_bounds (m_view this) (GetOffset this) (requested o) →
  ∃ this', perform o this = (Returned tt, this') ∧ try_perform o this = (true, this') ∧
           GetOffset this' = wrap_uint64 (GetOffset this + Z.of_nat (requested o)) ∧
           GetEndianness this' = GetEndianness this ∧
           view_read (m_view this') (GetOffset this) (requested o) = Some (payload o this).
Proof.
  intros Hin. destruct (perform_payload o this) as [-> ->].
  rewrite <- (length_payload o this) in Hin |- *.
  destruct (view_write_in _ _ _ Hin) as (v' & Hw & _ & _ & Hr).
  unfold throwing, trying, BNWriteData. rewrite Hw. simpl. eauto 10.
Qed.

Lemma write_out o this :
  ¬ in_bounds (m_view this) (GetOffset this) (requested o) →
  perform o this = (Thrown WriteException, this) ∧ try_perform o this = (false, this).
Proof.
  intros Hout. destruct (perform_payload o this) as [-> ->].
  rewrite <- (length_payload o this) in Hout.
  unfold throwing, trying, BNWriteData. by rewrite (view_write_out _ _ _ Hout).
Qed.

(** C4: every write operation ([Write], [Write8] to [Write64] and the [LE] /
    [BE] variants) is checked against the bounds of the view: when the target
    range at the cursor is not fully within the view, the operation throws
    [WriteException], whose [what()] is "write out of bounds", and its
    [TryWrite] twin returns [false] instead; when it is, the operation
    returns, the twin returns [true], and the view holds the bytes written;
    so a twin returns [true] exactly when the write succeeds. *)
Theorem BinaryWriter_bounds_checked (o : write_op) (this : BinaryWriter) :
  what WriteException = "write out of bounds" ∧
  (¬ in_bounds (m_view this) (GetOffset this) (requested o) →
     (perform o this).1 = Thrown WriteException ∧ (try_perform o this).1 = false) ∧
  (in_bounds (m_view this) (GetOffset this) (requested o) →
     (perform o this).1 = Returned tt ∧ (try_perform o this).1 = true ∧
     (try_perform o this).2 = (perform o this).2 ∧
     view_read (m_view (perform o this).2) (GetOffset this) (requested o)
       = Some (payload o this)) ∧
  ((try_perform o this).1 = true ↔ returned (perform o this).1 = true).
Proof.
  split; [reflexivity |]. split; [| split].
  - intros Hout. destruct (write_out o this Hout) as [-> ->]. done.
  - intros Hin. destruct (write_in o this Hin) as (this' & -> & -> & _ & _ & Hr). done.
  - destruct (decide (in_bounds (m_view this) (GetOffset this) (requested o))) as [Hin | Hout].
    + destruct (write_in o this Hin) as (this' & -> & -> & _). done.
    + destruct (write_out o this Hout) as [-> ->]. done.
Qed.

End WriterTheory.

Module CursorTheory.
Import Stream StreamTheory.

Module R := BinaryReader.
Module W := BinaryWriter.


(** The reader after an operation or its [Try] twin. *)
Lemma reader_after o (r : R.BinaryReader) :
  (in_bounds (R.m_view r) (R.GetOffset r) (R.requested o) ∧
   returned (R.perform o r).1 = true ∧ (R.try_perform o r).1.1 = true ∧
   (R.perform o r).2 = R.set_position r (R.GetOffset r + Z.of_nat (R.requested o)) ∧
   (R.try_perform o r).2 = R.set_position r (R.GetOffset r + Z.of_nat (R.requested o))) ∨
  (¬ in_bounds (R.m_view r) (R.GetOffset r) (R.requested o) ∧
   returned (R.perform o r).1 = false ∧ (R.try_perform o r).1.1 = false ∧
   (R.perform o r).2 = r ∧ (R.try_perform o r).2 = r).
Proof.
  destruct (decide (in_bounds (R.m_view r) (R.GetOffset r) (R.requested o))) as [Hin | Hout].
  - left. destruct (ReaderTheory.read_in o r Hin) as (v & -> & ->). done.
  - right. destruct (ReaderTheory.read_out o r Hout) as [-> ->]. done.
Qed.

(** The writer after an operation or its [Try] twin. *)
Lemma writer_after o (w : W.BinaryWriter) :
  (in_bounds (W.m_view w) (W.GetOffset w) (W.requested o) ∧
   returned (W.perform o w).1 = true ∧ (W.try_perform o w).1 = true ∧
   (W.try_perform o w).2 = (W.perform o w).2 ∧
   W.GetOffset (W.perform o w).2 = wrap_uint64 (W.GetOffset w + Z.of_nat (W.requested o)) ∧
   W.GetEndianness (W.perform o w).2 = W.GetEndianness w) ∨
  (¬ in_bounds (W.m_view w) (W.GetOffset w) (W.requested o) ∧
   returned (W.perform o w).1 = false ∧ (W.try_perform o w).1 = false ∧
   (W.perform o w).2 = w ∧ (W.try_perform o w).2 = w).
Proof.
  destruct (decide (in_bounds (W.m_view w) (W.GetOffset w) (W.requested o))) as [Hin | Hout].
  - left. destruct (WriterTheory.write_in o w Hin) as (w' & -> & -> & Hoff & He & _). done.
  - right. destruct (WriterTheory.write_out o w Hout) as [-> ->]. done.
Qed.



(** *** Byte order *)

Lemma reader_exec_endianness c (r : R.BinaryReader) :
  R.GetEndianness (R.exec c r) = R.GetEndianness r.
Proof.
  destruct c as [offset | offset | o | o]; simpl; try done.
  - by destruct (reader_after o r) as [(_ & _ & _ & -> & _) | (_ & _ & _ & -> & _)].
  - by destruct (reader_after o r) as [(_ & _ & _ & _ & ->) | (_ & _ & _ & _ & ->)].
Qed.

Lemma writer_exec_endianness c (w : W.BinaryWriter) :
  W.GetEndianness (W.exec c w) = W.GetEndianness w.
Proof.
  destruct c as [offset | offset | o | o]; simpl; try done.
  - by destruct (writer_after o w) as [(_ & _ & _ & _ & _ & ->) | (_ & _ & _ & -> & _)].
  - destruct (writer_after o w) as [(_ & _ & _ & -> & _ & ->) | (_ & _ & _ & _ & ->)]; done.
Qed.

(** C10: a reader or writer constructed without an endianness argument is
    little-endian: [GetEndianness()] returns [LittleEndian] after the
    constructor and after any seeks, reads, writes and [Try] calls that
    follow, [SetEndianness(e)] makes it return [e], and in a little-endian
    reader or writer [Read16] / [Read32] / [Read64] and [Write16] / [Write32]
    / [Write64] (and their [Try] twins) do what [ReadLE16] / [ReadLE32] /
    [ReadLE64] and [WriteLE16] / [WriteLE32] / [WriteLE64] do: same value,
    same bytes written, same reader or writer afterwards. *)
Theorem default_little_endian (data : BinaryView) :
  (∀ cs, R.GetEndianness (fold_left (λ r c, R.exec c r) cs (R.new data None)) = LittleEndian) ∧
  (∀ cs, W.GetEndianness (fold_left (λ w c, W.exec c w) cs (W.new data None)) = LittleEndian) ∧
  (∀ r e, R.GetEndianness (R.SetEndianness r e) = e) ∧
  (∀ w e, W.GetEndianness (W.SetEndianness w e) = e) ∧
  (∀ r, R.GetEndianness r = LittleEndian →
     R.Read16 r = R.ReadLE16 r ∧ R.Read32 r = R.ReadLE32 r ∧ R.Read64 r = R.ReadLE64 r ∧
     R.TryRead16 r = R.TryReadLE16 r ∧ R.TryRead32 r = R.TryReadLE32 r ∧
     R.TryRead64 r = R.TryReadLE64 r) ∧
  (∀ w val, W.GetEndianness w = LittleEndian →
     W.Write16 w val = W.WriteLE16 w val ∧ W.Write32 w val = W.WriteLE32 w val ∧
     W.Write64 w val = W.WriteLE64 w val ∧
     W.TryWrite16 w val = W.TryWriteLE16 w val ∧ W.TryWrite32 w val = W.TryWriteLE32 w val ∧
     W.TryWrite64 w val = W.TryWriteLE64 w val).
Proof.
  split; [| split; [| split; [| split; [| split]]]].
  - intros cs. induction cs as [| c cs IH] using rev_ind; [done |].
    by rewrite fold_left_app, <- IH; simpl; rewrite reader_exec_endianness.
  - intros cs. induction cs as [| c cs IH] using rev_ind; [done |].
    by rewrite fold_left_app, <- IH; simpl; rewrite writer_exec_endianness.
  - done.
  - done.
  - intros r He.
    unfold R.Read16, R.Read32, R.Read64, R.TryRead16, R.TryRead32, R.TryRead64.
    rewrite He. done.
  - intros w val He.
    unfold W.Write16, W.Write32, W.Write64, W.TryWrite16, W.TryWrite32, W.TryWrite64.
    rewrite He. done.
Qed.

End CursorTheory.

(** ** More on handles *)

Module RefFrameTheory.
Import RefCount RefFrame RefCountTheory.

(** What one guarded call does to the three parts of the state. *)
Lemma if_AddRef_effect p s s' :
  if_AddRef p s = Some s' →
  refs s' = refs s ∧ trace s' = trace s ++ addref_calls (Some p) ∧
  (∀ a, p ≠ Ptr a → heap s' !! a = heap s !! a).
Proof.
  destruct p as [| b]; simpl.
  - intros [= <-]. by rewrite app_nil_r.
  - destruct (heap s !! b) as [o |]; simpl; [| done]. intros [= <-]. simpl.
    split; [done |]. split; [done |].
    intros a Hne. apply lookup_insert_ne. congruence.
Qed.

Lemma if_Release_effect q s s' :
  if_Release q s = Some s' →
  refs s' = refs s ∧ (∃ deleted, trace s' = trace s ++ release_calls (Some q) deleted) ∧
  (∀ a, q ≠ Ptr a → heap s' !! a = heap s !! a).
Proof.
  destruct q as [| b]; simpl.
  - intros [= <-]. split; [done |]. split; [exists false; by rewrite app_nil_r | done].
  - destruct (heap s !! b) as [o |]; simpl; [| done].
    destruct (m_refs o =? 1); intros [= <-]; simpl.
    + split; [done |]. split; [exists true; by rewrite <- app_assoc |].
      intros a Hne. rewrite lookup_delete_ne, lookup_insert_ne by congruence. done.
    + split; [done |]. split; [by exists false |].
      intros a Hne. apply lookup_insert_ne. congruence.
Qed.

(** One shape for the six members of [Ref<T>]. *)
Lemma retarget_effect s h p q s' :
  (s2 ← if_AddRef p (set_refs (insert h p) s); if_Release q s2) = Some s' →
  refs s' = <[h:=p]> (refs s) ∧
  (∃ deleted, trace s' = trace s ++ addref_calls (Some p) ++ release_calls (Some q) deleted) ∧
  (∀ a, p ≠ Ptr a → q ≠ Ptr a → heap s' !! a = heap s !! a).
Proof.
  intros Hrun.
  destruct (if_AddRef p (set_refs (insert h p) s)) as [s2 |] eqn:Hadd; [| done].
  simpl in Hrun.
  destruct (if_AddRef_effect _ _ _ Hadd) as (Hr2 & Ht2 & Hh2).
  destruct (if_Release_effect _ _ _ Hrun) as (Hr3 & [deleted Ht3] & Hh3).
  split; [by rewrite Hr3, Hr2 |]. split.
  - exists deleted. by rewrite Ht3, Ht2, <- app_assoc.
  - intros a Hp Hq. by rewrite Hh3, Hh2.
Qed.

(** A guarded [AddRef] deletes nothing. *)
Lemma if_AddRef_keeps p s s' a :
  if_AddRef p s = Some s' → is_Some (heap s !! a) → is_Some (heap s' !! a).
Proof.
  destruct p as [| b]; simpl.
  - by intros [= <-].
  - destruct (heap s !! b) as [o |] eqn:Hb; simpl; [| done]. intros [= <-]. simpl.
    destruct (decide (a = b)) as [-> | Hne].
    + rewrite lookup_insert_eq. by eexists.
    + by rewrite lookup_insert_ne.
Qed.

(** A guarded [Release] after which every object is still there made no
    [delete this]. *)
Lemma if_Release_kept q s s' :
  if_Release q s = Some s' →
  (∀ a, is_Some (heap s !! a) → is_Some (heap s' !! a)) →
  trace s' = trace s ++ release_calls (Some q) false.
Proof.
  destruct q as [| b]; simpl.
  - intros [= <-] _. by rewrite app_nil_r.
  - destruct (heap s !! b) as [o |] eqn:Hb; simpl; [| done].
    destruct (m_refs o =? 1); intros [= <-] Hkept; simpl; [| done].
    destruct (Hkept b) as [o' Ho']; [by eexists |].
    simpl in Ho'. by rewrite lookup_delete_eq in Ho'.
Qed.

Lemma retarget_kept s h p q s' :
  (s2 ← if_AddRef p (set_refs (insert h p) s); if_Release q s2) = Some s' →
  (∀ a, is_Some (heap s !! a) → is_Some (heap s' !! a)) →
  trace s' = trace s ++ addref_calls (Some p) ++ release_calls (Some q) false.
Proof.
  intros Hrun Hkept.
  destruct (if_AddRef p (set_refs (insert h p) s)) as [s2 |] eqn:Hadd; [| done].
  simpl in Hrun.
  destruct (if_AddRef_effect _ _ _ Hadd) as (_ & Ht2 & Hh2).
  rewrite (if_Release_kept _ _ _ Hrun), Ht2; [by rewrite <- app_assoc |].
  intros a [o Ha]. apply Hkept.
  destruct p as [| b]; simpl in Hadd.
  - injection Hadd as <-. by eexists.
  - destruct (decide (a = b)) as [-> | Hne].
    + destruct (heap s !! b) as [ob |] eqn:Hb; simpl in Hadd; [by eexists | done].
    + assert (heap s2 !! a = heap s !! a) as <- by (apply Hh2; congruence). by eexists.
Qed.

(** X1: an operation of [Ref<T>] that returns without deleting an object (so
    that no destructor has run) has written no handle but its own, has made
    no call but [AddRef] on the pointer it stores (if that is not [NULL])
    followed by [Release] on the pointer it lets go (if that is not [NULL]),
    and has left every object other than those two as it was. *)
Theorem Ref_step_footprint s o s' :
  step o s = Some s' →
  (∀ a, is_Some (heap s !! a) → is_Some (heap s' !! a)) →
  (∀ h, target o ≠ Some h → refs s' !! h = refs s !! h) ∧
  trace s' = trace s ++ addref_calls (new_ptr s o) ++ release_calls (old_ptr s o) false ∧
  (∀ a, ¬ touches s o a → heap s' !! a = heap s !! a).
Proof.
  unfold touches.
  destruct o as [a | h | h p | h src | h src | h p | h]; simpl.
  - unfold new_object. destruct (heap s !! a) eqn:Ha; [done |]. intros [= <-] _. simpl.
    split; [done |]. split; [by rewrite app_nil_r |].
    intros b Hb. apply lookup_insert_ne. intros ->. apply Hb. by left.
  - intros [= <-] _. simpl. split.
    + intros h' Hne. apply lookup_insert_ne. congruence.
    + split; [by rewrite app_nil_r | done].
  - unfold Ref_from_ptr. intros Hrun Hkept.
    assert ((s2 ← if_AddRef p (set_refs (insert h p) s); if_Release NULL s2) = Some s')
      as Hrun' by (by rewrite Hrun).
    destruct (retarget_effect s h p NULL s' Hrun') as (Hr & _ & Hh).
    split; [intros h' Hne; rewrite Hr; apply lookup_insert_ne; congruence |].
    split; [by rewrite (retarget_kept s h p NULL s' Hrun' Hkept) |].
    intros a Ha. apply Hh; [| done]. intros ->. apply Ha. right. by left.
  - unfold Ref_copy. destruct (refs s !! src) as [p |] eqn:Hsrc; simpl; [| done].
    intros Hrun Hkept.
    assert ((s2 ← if_AddRef p (set_refs (insert h p) s); if_Release NULL s2) = Some s')
      as Hrun' by (by rewrite Hrun).
    destruct (retarget_effect s h p NULL s' Hrun') as (Hr & _ & Hh).
    split; [intros h' Hne; rewrite Hr; apply lookup_insert_ne; congruence |].
    split; [by rewrite (retarget_kept s h p NULL s' Hrun' Hkept) |].
    intros a Ha. apply Hh; [| done]. intros ->. apply Ha. right. by left.
  - unfold Ref_assign. destruct (refs s !! h) as [q |] eqn:Hh; simpl; [| done].
    destruct (refs s !! src) as [p |] eqn:Hsrc; simpl; [| done].
    intros Hrun Hkept. destruct (retarget_effect s h p q s' Hrun) as (Hr & _ & Hf).
    split; [intros h' Hne; rewrite Hr; apply lookup_insert_ne; congruence |].
    split; [by apply (retarget_kept s h p q s' Hrun Hkept) |].
    intros a Ha. apply Hf; intros ->; apply Ha; right; [by left | by right].
  - unfold Ref_assign_ptr. destruct (refs s !! h) as [q |] eqn:Hh; simpl; [| done].
    intros Hrun Hkept. destruct (retarget_effect s h p q s' Hrun) as (Hr & _ & Hf).
    split; [intros h' Hne; rewrite Hr; apply lookup_insert_ne; congruence |].
    split; [by apply (retarget_kept s h p q s' Hrun Hkept) |].
    intros a Ha. apply Hf; intros ->; apply Ha; right; [by left | by right].
  - unfold Ref_destroy. destruct (refs s !! h) as [q |] eqn:Hh; simpl; [| done].
    destruct (if_Release q s) as [s1 |] eqn:Hrel; simpl; [| done].
    intros [= <-] Hkept. simpl in *.
    destruct (if_Release_effect _ _ _ Hrel) as (Hr & _ & Hf).
    split; [intros h' Hne; rewrite Hr; apply lookup_delete_ne; congruence |].
    split; [by apply (if_Release_kept q s s1 Hrel Hkept) |].
    intros a Ha. apply Hf. intros ->. apply Ha. right. by right.
Qed.

Lemma Ref_step_footprint_witness :
  ∃ s', step (OpRefAssign 1%nat 0%nat) two_state = Some s' ∧
        refs s' !! 2%nat = Some (Ptr 2%positive) ∧
        trace s' = [EvAddRef 1%positive; EvRelease 2%positive] ∧
        heap s' !! 2%positive = Some {| m_refs := 1 |}.
Proof.
  destruct (step (OpRefAssign 1%nat 0%nat) two_state) as [s' |] eqn:Hs;
    [| vm_compute in Hs; discriminate].
  destruct (Ref_step_footprint two_state (OpRefAssign 1%nat 0%nat) s' Hs)
    as (Hrefs & Htrace & _).
  - vm_compute in Hs. injection Hs as <-. cbn [heap two_state]. intros a [o Ha].
    apply lookup_insert_Some in Ha as [[<- _] | [_ Ha]]; [by eexists |].
    apply lookup_singleton_Some in Ha as [<- _]. by eexists.
  - exists s'. split; [reflexivity |]. split; [| split].
    + etransitivity; [apply (Hrefs 2%nat); discriminate | reflexivity].
    + exact Htrace.
    + vm_compute in Hs. injection Hs as <-. reflexivity.
Defined.

(** *** The last handle *)

(** X2: under the invariant, destroying a handle (or assigning [NULL] to it)
    deletes the object it wraps exactly when it was the only handle of that
    object; otherwise the object stays, with a count one less.  Once the
    object is deleted, a handle constructed from the old raw pointer is
    undefined. *)
Theorem last_handle_deletes s h a :
  Inv s → refs s !! h = Some (Ptr a) →
  ∃ s' s'', Ref_destroy h s = Some s' ∧ refs s' = delete h (refs s) ∧
            Ref_assign_ptr h NULL s = Some s'' ∧ refs s'' = <[h:=NULL]> (refs s) ∧
            heap s'' = heap s' ∧
            (ref_count a (refs s) = 1%nat →
               heap s' !! a = None ∧ ∀ h', Ref_from_ptr h' (Ptr a) s' = None) ∧
            (ref_count a (refs s) ≠ 1%nat →
               heap s' !! a = Some {| m_refs := Z.of_nat (ref_count a (refs s)) - 1 |}).
Proof.
  intros HI Hh. destruct (inv_live s HI h a Hh) as [o Ho].
  pose proof (inv_count s HI a o Ho) as Hc.
  pose proof (inv_int s HI a o Ho) as Hint.
  pose proof (ref_count_pos a h _ Hh) as Hpos.
  unfold Ref_destroy, Ref_assign_ptr. rewrite Hh. simpl. rewrite Ho. simpl.
  destruct (m_refs o =? 1) eqn:Hone.
  - apply Z.eqb_eq in Hone.
    eexists _, _. split; [done |]. split; [done |]. split; [done |]. split; [done |].
    split; [done |]. simpl. split.
    + intros _. split; [apply lookup_delete_eq |].
      intros h'. unfold Ref_from_ptr. simpl. by rewrite lookup_delete_eq.
    + intros Hne. lia.
  - apply Z.eqb_neq in Hone.
    eexists _, _. split; [done |]. split; [done |]. split; [done |]. split; [done |].
    split; [done |]. simpl. split.
    + intros Heq. lia.
    + intros _. rewrite lookup_insert_eq. do 2 f_equal.
      rewrite <- Hc. apply wrap_int_id. unfold is_int, INT_MIN, INT_MAX in *. lia.
Qed.

Lemma last_handle_deletes_witness :
  ∃ s', Ref_destroy 0%nat two_state = Some s' ∧ heap s' !! 1%positive = None.
Proof.
  assert (Inv two_state) as HI.
  { unfold two_state. split; cbn [heap refs].
    - intros a o Ha.
      apply lookup_insert_Some in Ha as [[<- <-] | [_ Ha]]; [reflexivity |].
      apply lookup_singleton_Some in Ha as [<- <-]. reflexivity.
    - intros h a Hh.
      apply lookup_insert_Some in Hh as [[<- [= <-]] | [_ Hh]]; [by eexists |].
      apply lookup_insert_Some in Hh as [[<- [= <-]] | [_ Hh]]; [by eexists |].
      apply lookup_singleton_Some in Hh as [<- [= <-]]. by eexists.
    - intros a o Ha.
      apply lookup_insert_Some in Ha as [[<- <-] | [_ Ha]];
        [vm_compute; split; discriminate |].
      apply lookup_singleton_Some in Ha as [<- <-]. vm_compute; split; discriminate. }
  destruct (last_handle_deletes two_state 0%nat 1%positive HI eq_refl)
    as (s' & _ & Hd & _ & _ & _ & _ & Hlast & _).
  exists s'. split; [exact Hd |]. by apply Hlast.
Defined.

(** *** Copies that come and go *)

(** X3: copy-constructing a handle and destroying the copy (a [Ref<T>]
    passed by value, a temporary) restores the heap and the handles: the
    count is back where it was and nothing is deleted.  The object wrapped,
    if any, is one that has not been deleted and whose count, an [int], is
    not zero. *)
Theorem copy_destroy_restores s h src p :
  refs s !! h = None → refs s !! src = Some p →
  (∀ a, p = Ptr a → ∃ o, heap s !! a = Some o ∧ is_int (m_refs o) ∧ m_refs o ≠ 0) →
  ∃ s1 s2, Ref_copy h src s = Some s1 ∧ Ref_destroy h s1 = Some s2 ∧
           heap s2 = heap s ∧ refs s2 = refs s ∧
           trace s2 = trace s ++ match p with NULL => [] | Ptr a => [EvAddRef a; EvRelease a] end.
Proof.
  intros Hh Hsrc Hobj. unfold Ref_copy, Ref_destroy. rewrite Hsrc. simpl.
  destruct p as [| a]; simpl.
  - eexists _, _. split; [done |]. simpl. rewrite lookup_insert_eq. simpl.
    split; [done |]. split; [done |]. split; [by apply delete_insert_id |].
    by rewrite app_nil_r.
  - destruct (Hobj a eq_refl) as (o & Ho & Hint & Hnz). rewrite Ho. simpl.
    assert ((wrap_int (m_refs o + 1) =? 1) = false) as Hone.
    { apply Z.eqb_neq. by rewrite wrap_int_succ_eq_1. }
    eexists _, _. split; [done |]. simpl. rewrite lookup_insert_eq. simpl.
    rewrite lookup_insert_eq. simpl. rewrite Hone.
    split; [done |]. simpl. split.
    + rewrite insert_insert_eq. apply insert_id. rewrite Ho. f_equal.
      destruct o as [m]. simpl in *. f_equal. symmetry. by apply (wrap_int_succ_pred m).
    + split; [by apply delete_insert_id |]. by rewrite <- app_assoc.
Qed.

Lemma copy_destroy_restores_witness :
  ∃ s1 s2, Ref_copy 3%nat 0%nat two_state = Some s1 ∧ Ref_destroy 3%nat s1 = Some s2 ∧
           heap s2 = heap two_state ∧ refs s2 = refs two_state.
Proof.
  destruct (copy_destroy_restores two_state 3%nat 0%nat (Ptr 1%positive))
    as (s1 & s2 & H1 & H2 & Hheap & Hrefs & _).
  - reflexivity.
  - reflexivity.
  - intros a [= <-]. exists {| m_refs := 1 |}. split; [reflexivity |].
    split; [vm_compute; split; discriminate | discriminate].
  - by exists s1, s2.
Defined.

(** *** Assignment against destruction and construction *)

(** X4: when the pointer assigned differs from the pointer held, and the
    handle is not the last one on the object it holds (the count of that
    object is not 1, so that letting it go deletes nothing and no destructor
    runs), [this = p] leaves the heap and the handles as destroying [this]
    and constructing it again from [p] does; only the order of the two calls
    differs ([AddRef] first in the assignment, [Release] first in the
    other), and the object let go is still there. *)
Theorem assign_as_destroy_construct s h p q :
  refs s !! h = Some q → p ≠ q → live_ptr s p →
  (∀ b, q = Ptr b → ∃ ob, heap s !! b = Some ob ∧ m_refs ob ≠ 1) →
  ∃ s1 s2 s3, Ref_destroy h s = Some s1 ∧ Ref_from_ptr h p s1 = Some s2 ∧
              Ref_assign_ptr h p s = Some s3 ∧
              heap s3 = heap s2 ∧ refs s3 = refs s2 ∧
              live_ptr s3 q ∧
              trace s1 = trace s ++ release_calls (Some q) false ∧
              trace s3 = trace s ++ addref_calls (Some p) ++ release_calls (Some q) false.
Proof.
  intros Hh Hne Hp Hq. unfold Ref_destroy, Ref_from_ptr, Ref_assign_ptr. rewrite Hh. simpl.
  destruct p as [| a], q as [| b]; simpl in *; try done.
  - destruct (Hq b eq_refl) as (ob & Hb & Hone). rewrite Hb. simpl.
    apply Z.eqb_neq in Hone. rewrite Hone.
    eexists _, _, _. split; [done |]. split; [done |]. split; [done |]. simpl.
    split; [done |]. split; [by rewrite insert_delete_eq |].
    split; [rewrite lookup_insert_eq; by eexists | done].
  - destruct Hp as [oa Ha]. rewrite Ha. simpl.
    eexists _, _, _. split; [done |]. simpl. rewrite Ha. simpl.
    split; [done |]. split; [done |]. simpl.
    split; [done |]. split; [by rewrite insert_delete_eq |].
    split; [done |]. split; [by rewrite app_nil_r | done].
  - assert (a ≠ b) as Hab by congruence.
    destruct Hp as [oa Ha]. destruct (Hq b eq_refl) as (ob & Hb & Hone).
    rewrite Ha, Hb. simpl. rewrite lookup_insert_ne, Hb by done. simpl.
    apply Z.eqb_neq in Hone. rewrite Hone.
    eexists _, _, _. split; [done |]. simpl.
    rewrite lookup_insert_ne, Ha by done. simpl.
    split; [done |]. split; [done |]. simpl.
    split; [by apply insert_insert_ne |]. split; [by rewrite insert_delete_eq |].
    split; [rewrite lookup_insert_eq; by eexists |]. split; [done |].
    by rewrite <- app_assoc.
Qed.

Lemma assign_as_destroy_construct_witness :
  ∃ s1 s2 s3, Ref_destroy 1%nat two_state = Some s1 ∧
              Ref_from_ptr 1%nat (Ptr 1%positive) s1 = Some s2 ∧
              Ref_assign_ptr 1%nat (Ptr 1%positive) two_state = Some s3 ∧
              heap s3 = heap s2 ∧ refs s3 = refs s2.
Proof.
  destruct (assign_as_destroy_construct two_state 1%nat (Ptr 1%positive) (Ptr 2%positive))
    as (s1 & s2 & s3 & H1 & H2 & H3 & Hheap & Hrefs & _).
  - reflexivity.
  - discriminate.
  - by eexists.
  - intros b [= <-]. exists {| m_refs := 2 |}. split; [reflexivity | discriminate].
  - by exists s1, s2, s3.
Defined.

End RefFrameTheory.

(** ** More on data buffers *)

Module BufferCodecTheory.
Import Buffer BufferCodec BufferTheory.

Lemma alloc_other contents (c : core) x :
  is_Some (c !! x) → x ≠ (alloc contents c).1.
Proof.
  intros [d Hx] Heq. pose proof (alloc_fresh contents c) as Hf.
  rewrite <- Heq in Hf. congruence.
Qed.

Lemma alloc_lookup contents (c : core) :
  (alloc contents c).2 !! (alloc contents c).1 = Some contents.
Proof. simpl. apply lookup_insert_eq. Qed.

Lemma alloc_frame contents (c : core) x :
  is_Some (c !! x) → (alloc contents c).2 !! x = c !! x.
Proof.
  intros Hx. simpl. apply lookup_insert_ne.
  symmetry. by apply (alloc_other contents c x).
Qed.

Lemma free_alloc contents (c : core) :
  BNFreeDataBuffer (alloc contents c).1 (alloc contents c).2 = Some c.
Proof.
  unfold BNFreeDataBuffer. simpl. rewrite lookup_insert_eq. simpl.
  f_equal. apply delete_insert_id. apply (alloc_fresh contents c).
Qed.

(** *** Construction and destruction *)

(** X5: each constructor of [DataBuffer] gives a buffer with the contents
    asked for (nothing, [len] bytes, the bytes given, the bytes of the buffer
    copied) in storage that was not in use, leaves the buffers that exist as
    they are, and the destructor gives back exactly the store from before
    the constructor. *)
Theorem construct_destroy_restores (data : list byte) (len : nat) (c : core) :
  (∃ b c1, DataBuffer_new c = Some (b, c1) ∧ c !! m_buffer b = None ∧
           GetData b c1 = Some [] ∧ GetLength b c1 = Some 0%nat ∧
           (∀ x, is_Some (c !! x) → c1 !! x = c !! x) ∧
           DataBuffer_destroy b c1 = Some c) ∧
  (∃ b c1, DataBuffer_of_len len c = Some (b, c1) ∧ c !! m_buffer b = None ∧
           GetLength b c1 = Some len ∧
           (∀ x, is_Some (c !! x) → c1 !! x = c !! x) ∧
           DataBuffer_destroy b c1 = Some c) ∧
  (∃ b c1, DataBuffer_of_data data c = Some (b, c1) ∧ c !! m_buffer b = None ∧
           GetData b c1 = Some data ∧ GetLength b c1 = Some (length data) ∧
           (∀ x, is_Some (c !! x) → c1 !! x = c !! x) ∧
           DataBuffer_destroy b c1 = Some c) ∧
  (∀ buf d, c !! m_buffer buf = Some d →
     ∃ b c1, DataBuffer_copy buf c = Some (b, c1) ∧ c !! m_buffer b = None ∧
             GetData b c1 = Some d ∧ GetLength b c1 = Some (length d) ∧
             (∀ x, is_Some (c !! x) → c1 !! x = c !! x) ∧
             DataBuffer_destroy b c1 = Some c).
Proof.
  assert (∀ contents, ∃ b c1,
            (b, c1) = ({| m_buffer := (alloc contents c).1 |}, (alloc contents c).2) ∧
            c !! m_buffer b = None ∧
            GetData b c1 = Some contents ∧ GetLength b c1 = Some (length contents) ∧
            (∀ x, is_Some (c !! x) → c1 !! x = c !! x) ∧
            DataBuffer_destroy b c1 = Some c) as Hnew.
  { intros contents. eexists _, _. split; [reflexivity |].
    split; [apply (alloc_fresh contents c) |].
    unfold GetData, GetLength, BNGetDataBufferContents, BNGetDataBufferLength,
      DataBuffer_destroy.
    cbn [m_buffer]. rewrite alloc_lookup.
    split; [done |]. split; [done |]. split.
    - intros x Hx. by apply alloc_frame.
    - apply free_alloc. }
  split; [| split; [| split]].
  - destruct (Hnew []) as (b & c1 & [= -> ->] & H). eexists _, _. split; [done |]. exact H.
  - destruct (Hnew (replicate len Byte.x00)) as (b & c1 & [= -> ->] & Hf & _ & Hl & H).
    eexists _, _. split; [done |]. split; [exact Hf |].
    rewrite length_replicate in Hl. by split.
  - destruct (Hnew data) as (b & c1 & [= -> ->] & H). eexists _, _. split; [done |]. exact H.
  - intros buf d Hd.
    destruct (Hnew d) as (b & c1 & [= -> ->] & H). eexists _, _. split; [| exact H].
    unfold DataBuffer_copy, BNDuplicateDataBuffer. by rewrite Hd.
Qed.

(** *** Assignment keeps the books *)

(** X6: copy assignment between two different live buffers frees one buffer
    and allocates one: the store has as many buffers as before, every buffer
    other than the one assigned to is as it was, and the contents that the
    buffer assigned to held are gone (its storage is freed, or holds the copy
    when the core hands the same storage out again). *)
Theorem assign_keeps_count this buf (c : core) d :
  is_Some (c !! m_buffer this) → c !! m_buffer buf = Some d →
  m_buffer this ≠ m_buffer buf →
  ∃ new c', DataBuffer_assign this buf c = Some (new, c') ∧
            size c' = size c ∧
            c' !! m_buffer new = Some d ∧
            (∀ x, x ≠ m_buffer this → is_Some (c !! x) → c' !! x = c !! x) ∧
            (m_buffer new = m_buffer this ∨ c' !! m_buffer this = None).
Proof.
  intros [e He] Hd Hne.
  unfold DataBuffer_assign, BNFreeDataBuffer, BNDuplicateDataBuffer.
  rewrite He. simpl. rewrite lookup_delete_ne, Hd by done. simpl.
  set (c1 := delete (m_buffer this) c).
  pose proof (alloc_fresh d c1) as Hf. simpl in Hf.
  eexists _, _. split; [done |]. cbn [m_buffer]. split; [| split; [| split]].
  - rewrite map_size_insert_None by done. unfold c1.
    rewrite map_size_delete, He. simpl.
    pose proof (map_size_ne_0_lookup_2 c (m_buffer this) (mk_is_Some _ _ He)). lia.
  - apply lookup_insert_eq.
  - intros x Hx [v Hv]. rewrite lookup_insert_ne.
    + unfold c1. by rewrite lookup_delete_ne.
    + intros <-. subst c1. rewrite lookup_delete_ne in Hf by done. congruence.
  - destruct (decide (fresh (dom c1) = m_buffer this)) as [Heq | Hneq]; [by left |].
    right. rewrite lookup_insert_ne by done. unfold c1. apply lookup_delete_eq.
Qed.

Lemma assign_keeps_count_witness :
  ∃ new c', DataBuffer_assign {| m_buffer := 1%positive |} {| m_buffer := 2%positive |}
              {[ 1%positive := ["a"]%byte; 2%positive := ["b"; "c"]%byte ]} = Some (new, c') ∧
            size c' = 2%nat ∧ c' !! m_buffer new = Some ["b"; "c"]%byte.
Proof.
  destruct (assign_keeps_count {| m_buffer := 1%positive |} {| m_buffer := 2%positive |}
              {[ 1%positive := ["a"]%byte; 2%positive := ["b"; "c"]%byte ]}
              ["b"; "c"]%byte)
    as (new & c' & Ha & Hsize & Hnew & _).
  - by eexists.
  - reflexivity.
  - discriminate.
  - exists new, c'. split; [exact Ha |]. split; [| exact Hnew].
    rewrite Hsize. reflexivity.
Defined.

(** *** [operator[]] *)

(** X7: a byte written through [operator[]] inside the buffer is the byte
    read back at that offset; the bytes at the other offsets, the length of
    the buffer and the other buffers are as they were. *)
Theorem index_set_get this offset val (c c' : core) :
  index_set this offset val c = Some c' →
  index_get this offset c' = Some val ∧
  (∀ i, i ≠ offset → index_get this i c' = index_get this i c) ∧
  GetLength this c' = GetLength this c ∧
  (∀ other, m_buffer other ≠ m_buffer this →
     GetData other c' = GetData other c ∧ GetLength other c' = GetLength other c).
Proof.
  unfold index_set, index_get, GetData, GetLength,
    BNGetDataBufferContents, BNGetDataBufferLength.
  destruct (c !! m_buffer this) as [data |] eqn:Hd; simpl; [| done].
  case_decide as Hin; [| done]. intros [= <-].
  rewrite !lookup_insert_eq. simpl. split; [| split; [| split]].
  - by apply list_lookup_insert_eq.
  - intros i Hi. by apply list_lookup_insert_ne.
  - by rewrite length_insert.
  - intros other Hne. by rewrite !lookup_insert_ne.
Qed.

Lemma index_set_get_witness :
  ∃ c', index_set {| m_buffer := 1%positive |} 1%nat "z"%byte sample_core = Some c' ∧
        index_get {| m_buffer := 1%positive |} 1%nat c' = Some "z"%byte ∧
        index_get {| m_buffer := 1%positive |} 0%nat c' = Some "a"%byte.
Proof.
  destruct (index_set {| m_buffer := 1%positive |} 1%nat "z"%byte sample_core) as [c' |] eqn:Hs;
    [| vm_compute in Hs; discriminate].
  destruct (index_set_get _ _ _ _ _ Hs) as (Hget & Hother & _).
  exists c'. split; [reflexivity |]. split; [exact Hget |].
  etransitivity; [apply (Hother 0%nat); discriminate | reflexivity].
Defined.

(** *** The zlib members *)

Lemma assign_from_handle_spec output r (c : core) d z :
  c !! m_buffer output = Some d → c !! r = Some z → r ≠ m_buffer output →
  ∃ out' c', assign_from_handle output r c = Some (out', c') ∧
             GetData out' c' = Some z ∧ c' !! r = None ∧
             S (size c') = size c ∧
             (∀ x, x ≠ m_buffer output → x ≠ r → is_Some (c !! x) → c' !! x = c !! x).
Proof.
  intros Hd Hz Hne.
  unfold assign_from_handle, DataBuffer_assign, DataBuffer_destroy,
    BNFreeDataBuffer, BNDuplicateDataBuffer, DataBuffer_of_handle.
  cbn [m_buffer]. rewrite Hd. simpl. rewrite lookup_delete_ne, Hz by done. simpl.
  set (c1 := delete (m_buffer output) c).
  pose proof (alloc_fresh z c1) as Hf. simpl in Hf.
  assert (c1 !! r = Some z) as Hr by (unfold c1; by rewrite lookup_delete_ne).
  assert (fresh (dom c1) ≠ r) as Hnr by congruence.
  rewrite lookup_insert_ne, Hr by done. simpl.
  eexists _, _. split; [done |].
  unfold GetData, BNGetDataBufferContents. cbn [m_buffer].
  split; [| split; [| split]].
  - by rewrite lookup_delete_ne, lookup_insert_eq.
  - apply lookup_delete_eq.
  - rewrite map_size_delete, lookup_insert_ne, Hr by done. simpl.
    rewrite map_size_insert_None by done. unfold c1.
    rewrite map_size_delete, Hd. simpl.
    pose proof (map_size_ne_0_lookup_2 c _ (mk_is_Some _ _ Hd)). lia.
  - intros x Hxo Hxr [v Hv]. rewrite lookup_delete_ne by done.
    rewrite lookup_insert_ne.
    + unfold c1. by rewrite lookup_delete_ne.
    + intros <-. subst c1. rewrite lookup_delete_ne in Hf by done. congruence.
Qed.

Lemma zlib_member_spec f this output (c : core) d :
  c !! m_buffer output = Some d →
  match f d with
  | Some z =>
      ∃ out' c', ZlibCompress f this output c = Some (true, out', c') ∧
                 GetData out' c' = Some z ∧ size c' = size c ∧
                 (∀ x, x ≠ m_buffer output → is_Some (c !! x) → c' !! x = c !! x)
  | None => ZlibCompress f this output c = Some (false, output, c)
  end.
Proof.
  intros Hd. unfold ZlibCompress, BNZlibCompress, BNZlib. rewrite Hd. simpl.
  destruct (f d) as [z |]; [| done]. simpl.
  pose proof (alloc_fresh z c) as Hf. simpl in Hf.
  assert (fresh (dom c) ≠ m_buffer output) as Hne by congruence.
  destruct (assign_from_handle_spec output (fresh (dom c)) (<[fresh (dom c) := z]> c) d z)
    as (out' & c' & Ha & Hdata & _ & Hsize & Hframe).
  - by rewrite lookup_insert_ne.
  - apply lookup_insert_eq.
  - done.
  - rewrite Ha. simpl. exists out', c'. split; [done |]. split; [done |]. split.
    + rewrite map_size_insert_None in Hsize by done. lia.
    + intros x Hx [v Hv].
      assert (x ≠ fresh (dom c)) as Hxf by congruence.
      rewrite Hframe; [by rewrite lookup_insert_ne | done | done |].
      rewrite lookup_insert_ne by done. by eexists.
Qed.

(** X8: [ZlibCompress(output)] and [ZlibDecompress(output)] hand
    [output.m_buffer] to the core, whatever buffer they are called on: when
    the core succeeds they return [true] and [output] holds what the core
    made of the previous contents of [output], in a store with as many
    buffers as before (the previous buffer of [output] and the buffer of the
    core are both freed) and with every other buffer, that of [this]
    included, as it was; when the core fails they return [false] and
    nothing has changed. *)
Theorem Zlib_in_place (compress decompress : list byte → option (list byte))
    this output (c : core) d :
  c !! m_buffer output = Some d →
  match compress d with
  | Some z =>
      ∃ out' c', ZlibCompress compress this output c = Some (true, out', c') ∧
                 GetData out' c' = Some z ∧ size c' = size c ∧
                 (∀ x, x ≠ m_buffer output → is_Some (c !! x) → c' !! x = c !! x)
  | None => ZlibCompress compress this output c = Some (false, output, c)
  end ∧
  match decompress d with
  | Some z =>
      ∃ out' c', ZlibDecompress decompress this output c = Some (true, out', c') ∧
                 GetData out' c' = Some z ∧ size c' = size c ∧
                 (∀ x, x ≠ m_buffer output → is_Some (c !! x) → c' !! x = c !! x)
  | None => ZlibDecompress decompress this output c = Some (false, output, c)
  end.
Proof.
  intros Hd. split.
  - by apply zlib_member_spec.
  - change (ZlibDecompress decompress this output c)
      with (ZlibCompress decompress this output c).
    by apply zlib_member_spec.
Qed.

Lemma Zlib_in_place_witness :
  ∃ out' c', ZlibCompress sample_zlib {| m_buffer := 7%positive |} {| m_buffer := 1%positive |} sample_core
               = Some (true, out', c') ∧
             GetData out' c' = Some ["a"; "b"; "a"; "b"]%byte ∧ size c' = 1%nat.
Proof.
  destruct (Zlib_in_place sample_zlib sample_zlib {| m_buffer := 7%positive |} {| m_buffer := 1%positive |}
              sample_core ["a"; "b"]%byte eq_refl) as [(out' & c' & Hz & Hdata & Hsize & _) _].
  exists out', c'. split; [exact Hz |]. split; [exact Hdata |]. rewrite Hsize. reflexivity.
Defined.

(** *** Escaping *)

Lemma c_str_truncates s t : c_str (String.append s (String Ascii.zero t)) = c_str s.
Proof.
  induction s as [| ch s IH]; simpl.
  - done.
  - case_decide; [done |]. by rewrite IH.
Qed.

(** X9: [EscapeString(s)] returns the text the core makes of all [s.size()]
    characters of [s], and [UnescapeString(s)] the characters the core
    decodes from [s]; the buffer each of them works in is destroyed on
    return, so the store of the core is exactly as it was. *)
Theorem Escape_Unescape_pure (to_escaped : list byte → string)
    (decode_escaped : string → list byte) (s : string) (c : core) :
  EscapeString to_escaped s c
    = Some (c_str (to_escaped (String.list_byte_of_string s)), c) ∧
  UnescapeString decode_escaped s c
    = Some (String.string_of_list_byte (decode_escaped (c_str s)), c).
Proof.
  split.
  - unfold EscapeString, DataBuffer_of_data, BNCreateDataBuffer, ToEscapedString,
      BNDataBufferToEscapedString, DataBuffer_destroy.
    pose proof (alloc_lookup (String.list_byte_of_string s) c) as Hl.
    pose proof (free_alloc (String.list_byte_of_string s) c) as Hfree.
    destruct (alloc (String.list_byte_of_string s) c) as [b c1].
    simpl in Hl, Hfree |- *. rewrite Hl. simpl. by rewrite Hfree.
  - unfold UnescapeString, FromEscapedString, BNDecodeEscapedString, DataBuffer_of_handle,
      GetData, GetLength, BNGetDataBufferContents, BNGetDataBufferLength, DataBuffer_destroy.
    pose proof (alloc_lookup (decode_escaped (c_str s)) c) as Hl.
    pose proof (free_alloc (decode_escaped (c_str s)) c) as Hfree.
    destruct (alloc (decode_escaped (c_str s)) c) as [b c1].
    simpl in Hl, Hfree |- *. rewrite Hl. simpl. rewrite Hfree. simpl.
    by rewrite take_ge.
Qed.

(** X10: [FromEscapedString], [FromBase64] and [UnescapeString] hand
    [src.c_str()] to the core, so what follows the first NUL character of
    the string is never decoded: a string and its part before that
    character give the same result. *)
Theorem decoders_stop_at_NUL (decode_escaped decode_base64 : string → list byte)
    (s t : string) (c : core) :
  FromEscapedString decode_escaped (String.append s (String Ascii.zero t)) c
    = FromEscapedString decode_escaped s c ∧
  FromBase64 decode_base64 (String.append s (String Ascii.zero t)) c
    = FromBase64 decode_base64 s c ∧
  UnescapeString decode_escaped (String.append s (String Ascii.zero t)) c
    = UnescapeString decode_escaped s c.
Proof.
  unfold UnescapeString, FromEscapedString, FromBase64.
  by rewrite !c_str_truncates.
Qed.

End BufferCodecTheory.
